(** * useAutocomplete: a shallow embedding of the autocomplete hook

    The development models the React hook [useAutocomplete]
    (useAutocomplete.ts) together with the constants it reads
    (constants.ts).  The hook is a single-threaded, event-driven state
    machine: user actions ([updateInput], [clear], [moveHighlight], ...)
    and completions of asynchronous work (the debounce timer, the promise
    returned by [fetchFn] or [selectionFn], the back-off timer) arrive one
    at a time.  Each of them is an [Event]; [step] runs the handler of one
    event up to its next suspension point and then the effects React runs
    after the render that follows.

    Conventions.
    - Strings are sequences of code units below 256 (Latin-1), enough to
      run [trim] and [toLowerCase] as JavaScript does on that range.
    - JavaScript numbers that the hook uses as integers are [Z].
    - The Map in [cacheRef] is an association list kept in insertion
      order, which is the order a JavaScript Map iterates in.
    - An [AbortController] is a natural number; [aborted] is the set of
      controllers whose signal has been aborted. *)

From stdpp Require Import gmap strings list.
From Stdlib Require Import ZArith Ascii.

(** ** String primitives used by the hook *)

Module Str.

(** White space and line terminators removed by [String.prototype.trim]:
    TAB, LF, VT, FF, CR, SPACE and NO-BREAK SPACE. *)
Definition isWhiteSpace (c : ascii) : bool :=
  let n := N_of_ascii c in
  ((9 <=? n) && (n <=? 13) || (n =? 32) || (n =? 160))%N.

Fixpoint trimStart (s : string) : string :=
  match s with
  | EmptyString => EmptyString
  | String c r => if isWhiteSpace c then trimStart r else s
  end.

Definition trimEnd (s : string) : string :=
  String.rev (trimStart (String.rev s)).

Definition trim (s : string) : string := trimEnd (trimStart s).

(** Upper-case letters of the range: A-Z and the Latin-1 capitals
    U+00C0-U+00DE without the multiplication sign U+00D7. *)
Definition isUpper (c : ascii) : bool :=
  let n := N_of_ascii c in
  ((65 <=? n) && (n <=? 90) || (192 <=? n) && (n <=? 222) && negb (n =? 215))%N.

Definition lowerChar (c : ascii) : ascii :=
  if isUpper c then ascii_of_N (N_of_ascii c + 32) else c.

Fixpoint toLowerCase (s : string) : string :=
  match s with
  | EmptyString => EmptyString
  | String c r => String (lowerChar c) (toLowerCase r)
  end.

(** [!q] on a string: true exactly for the empty string. *)
Definition isEmpty (s : string) : bool :=
  match s with EmptyString => true | String _ _ => false end.

End Str.

(** ** constants.ts *)

Record DefaultConfig := {
  DEBOUNCE_MS : Z;
  MIN_CHARS : Z;
  MAX_CACHE_SIZE : Z;
  RETRY_ATTEMPTS : Z;
  BACKOFF_BASE_MS : Z;
  LIVE_REGION_DEBOUNCE_MS : Z
}.

Definition DEFAULT_CONFIG : DefaultConfig := {|
  DEBOUNCE_MS := 300;
  MIN_CHARS := 1;
  MAX_CACHE_SIZE := 50;
  RETRY_ATTEMPTS := 2;
  BACKOFF_BASE_MS := 150;
  LIVE_REGION_DEBOUNCE_MS := 120
|}.

(** ** The hook's parameters

    [UseAutocompleteParams]: [fetchFn] is required, the other fields are
    optional.  The two functions are the environment of the state machine
    (their calls are logged, their results arrive as events), so the
    record only says whether [selectionFn] was passed. *)

Record UseAutocompleteParams := {
  p_selectionFn : bool;
  p_debounceMs : option Z;
  p_minChars : option Z;
  p_maxCache : option Z
}.

(** The destructured parameters, defaults filled in from
    [DEFAULT_CONFIG]. *)
Record Config := {
  selectionFn : bool;
  debounceMs : Z;
  minChars : Z;
  maxCache : Z
}.

Definition destructure (p : UseAutocompleteParams) : Config := {|
  selectionFn := p_selectionFn p;
  debounceMs := default (DEBOUNCE_MS DEFAULT_CONFIG) (p_debounceMs p);
  minChars := default (MIN_CHARS DEFAULT_CONFIG) (p_minChars p);
  maxCache := default (MAX_CACHE_SIZE DEFAULT_CONFIG) (p_maxCache p)
|}.

(** The retry policy of the debounced fetch: both values are read from
    [DEFAULT_CONFIG] inside the timer callback, whatever the parameters. *)
Definition maxAttempts (p : UseAutocompleteParams) : Z :=
  RETRY_ATTEMPTS DEFAULT_CONFIG.

Definition backoffBase (p : UseAutocompleteParams) : Z :=
  BACKOFF_BASE_MS DEFAULT_CONFIG.

(** ** The suggestion cache: a Map in insertion order *)

Section Cache.
Context {T : Type}.

Fixpoint cache_get (key : string) (c : list (string * list T)) : option (list T) :=
  match c with
  | [] => None
  | (k, v) :: r => if decide (k = key) then Some v else cache_get key r
  end.

(** [Map.prototype.set]: an existing key keeps its position, a new key
    goes last. *)
Fixpoint cache_set (key : string) (v : list T) (c : list (string * list T))
  : list (string * list T) :=
  match c with
  | [] => [(key, v)]
  | (k, w) :: r =>
      if decide (k = key) then (k, v) :: r else (k, w) :: cache_set key v r
  end.

Fixpoint cache_delete (key : string) (c : list (string * list T))
  : list (string * list T) :=
  match c with
  | [] => []
  | (k, w) :: r =>
      if decide (k = key) then r else (k, w) :: cache_delete key r
  end.

(** The write of the success path: [set], then, when the size exceeds
    [maxCache], delete the first key the Map iterates. *)
Definition cache_store (maxCache : Z) (key : string) (arr : list T)
    (c : list (string * list T)) : list (string * list T) :=
  let c1 := cache_set key arr c in
  if (maxCache <? Z.of_nat (length c1))%Z then
    match c1 with
    | [] => c1
    | (first, _) :: _ => cache_delete first c1
    end
  else c1.

(** A run of writes, in order, starting from the empty Map. *)
Definition storeAll (m : Z) (kvs : list (string * list T)) : list (string * list T) :=
  fold_left (λ c kv, cache_store m kv.1 kv.2 c) kvs [].

End Cache.

(** ** State of one hook instance *)

Section Hook.
Context {T : Type}.

(** What a promise of [fetchFn] or [selectionFn] resolves with: the
    functions are typed [Promise<any>], and the hook tests the value
    with [Array.isArray]. *)
Inductive Payload := IsArray (data : list T) | NotArray.

Inductive Outcome := Resolved (d : Payload) | Rejected.

(** [Array.isArray(data) ? data : []] *)
Definition toArray (d : Payload) : list T :=
  match d with IsArray a => a | NotArray => [] end.

(** [arr.length === 0] *)
Definition isNil (l : list T) : bool :=
  match l with [] => true | _ :: _ => false end.

(** The seven [useState] cells, returned as [state]. *)
Record View := {
  input : string;
  query : string;
  suggestions : list T;
  loading : bool;
  error : option string;
  highlight : Z;
  noResults : bool
}.

Definition setInput (v : string) (w : View) : View :=
  {| input := v; query := query w; suggestions := suggestions w;
     loading := loading w; error := error w; highlight := highlight w;
     noResults := noResults w |}.
Definition setQuery (v : string) (w : View) : View :=
  {| input := input w; query := v; suggestions := suggestions w;
     loading := loading w; error := error w; highlight := highlight w;
     noResults := noResults w |}.
Definition setSuggestions (v : list T) (w : View) : View :=
  {| input := input w; query := query w; suggestions := v;
     loading := loading w; error := error w; highlight := highlight w;
     noResults := noResults w |}.
Definition setLoading (v : bool) (w : View) : View :=
  {| input := input w; query := query w; suggestions := suggestions w;
     loading := v; error := error w; highlight := highlight w;
     noResults := noResults w |}.
Definition setError (v : option string) (w : View) : View :=
  {| input := input w; query := query w; suggestions := suggestions w;
     loading := loading w; error := v; highlight := highlight w;
     noResults := noResults w |}.
Definition setHighlight (v : Z) (w : View) : View :=
  {| input := input w; query := query w; suggestions := suggestions w;
     loading := loading w; error := error w; highlight := v;
     noResults := noResults w |}.
Definition setNoResults (v : bool) (w : View) : View :=
  {| input := input w; query := query w; suggestions := suggestions w;
     loading := loading w; error := error w; highlight := highlight w;
     noResults := v |}.

(** An armed [window.setTimeout]: the delay and the [q] and [key] the
    callback closes over. *)
Record Timer := { tm_delay : Z; tm_q : string; tm_key : string }.

(** A suspended run of the debounce callback: it waits either for the
    promise of [fetchFn] or for the back-off timer. *)
Inductive Phase := AwaitFetch | AwaitBackoff (ms : Z).

Record Task := {
  t_q : string;
  t_key : string;
  t_attempt : Z;
  t_phase : Phase
}.

Record State := {
  view : View;
  (* useRef cells *)
  debounceRef : option nat;
  abortRef : option nat;
  cacheRef : list (string * list T);
  (* whether the last run of the query effect returned a clean-up *)
  cleanup : bool;
  (* the environment: timers, controllers, suspended async functions *)
  timers : gmap nat Timer;
  nextTimer : nat;
  aborted : gset nat;
  nextController : nat;
  fetches : gmap nat Task;
  selections : gset nat;
  (* calls made to fetchFn and selectionFn: controller and argument *)
  fetchLog : list (nat * string);
  selectionLog : list (nat * string)
}.

Definition onView (f : View → View) (s : State) : State :=
  {| view := f (view s); debounceRef := debounceRef s; abortRef := abortRef s;
     cacheRef := cacheRef s; cleanup := cleanup s; timers := timers s;
     nextTimer := nextTimer s; aborted := aborted s;
     nextController := nextController s; fetches := fetches s;
     selections := selections s; fetchLog := fetchLog s;
     selectionLog := selectionLog s |}.
Definition setCacheRef (v : list (string * list T)) (s : State) : State :=
  {| view := view s; debounceRef := debounceRef s; abortRef := abortRef s;
     cacheRef := v; cleanup := cleanup s; timers := timers s;
     nextTimer := nextTimer s; aborted := aborted s;
     nextController := nextController s; fetches := fetches s;
     selections := selections s; fetchLog := fetchLog s;
     selectionLog := selectionLog s |}.
Definition setCleanup (v : bool) (s : State) : State :=
  {| view := view s; debounceRef := debounceRef s; abortRef := abortRef s;
     cacheRef := cacheRef s; cleanup := v; timers := timers s;
     nextTimer := nextTimer s; aborted := aborted s;
     nextController := nextController s; fetches := fetches s;
     selections := selections s; fetchLog := fetchLog s;
     selectionLog := selectionLog s |}.
Definition setFetches (v : gmap nat Task) (s : State) : State :=
  {| view := view s; debounceRef := debounceRef s; abortRef := abortRef s;
     cacheRef := cacheRef s; cleanup := cleanup s; timers := timers s;
     nextTimer := nextTimer s; aborted := aborted s;
     nextController := nextController s; fetches := v;
     selections := selections s; fetchLog := fetchLog s;
     selectionLog := selectionLog s |}.
Definition setSelections (v : gset nat) (s : State) : State :=
  {| view := view s; debounceRef := debounceRef s; abortRef := abortRef s;
     cacheRef := cacheRef s; cleanup := cleanup s; timers := timers s;
     nextTimer := nextTimer s; aborted := aborted s;
     nextController := nextController s; fetches := fetches s;
     selections := v; fetchLog := fetchLog s;
     selectionLog := selectionLog s |}.

(** [window.clearTimeout(id)] *)
Definition clearTimeout (id : nat) (s : State) : State :=
  {| view := view s; debounceRef := debounceRef s; abortRef := abortRef s;
     cacheRef := cacheRef s; cleanup := cleanup s;
     timers := delete id (timers s);
     nextTimer := nextTimer s; aborted := aborted s;
     nextController := nextController s; fetches := fetches s;
     selections := selections s; fetchLog := fetchLog s;
     selectionLog := selectionLog s |}.

(** [debounceRef.current = window.setTimeout(callback, delay)] *)
Definition setTimeout (tm : Timer) (s : State) : State :=
  {| view := view s; debounceRef := Some (nextTimer s); abortRef := abortRef s;
     cacheRef := cacheRef s; cleanup := cleanup s;
     timers := <[nextTimer s := tm]> (timers s);
     nextTimer := S (nextTimer s); aborted := aborted s;
     nextController := nextController s; fetches := fetches s;
     selections := selections s; fetchLog := fetchLog s;
     selectionLog := selectionLog s |}.

(** [controller.abort()] *)
Definition abort (c : nat) (s : State) : State :=
  {| view := view s; debounceRef := debounceRef s; abortRef := abortRef s;
     cacheRef := cacheRef s; cleanup := cleanup s; timers := timers s;
     nextTimer := nextTimer s; aborted := {[c]} ∪ aborted s;
     nextController := nextController s; fetches := fetches s;
     selections := selections s; fetchLog := fetchLog s;
     selectionLog := selectionLog s |}.

(** [const controller = new AbortController(); abortRef.current = controller]:
    the new controller is [nextController] of the state given. *)
Definition newController (s : State) : State :=
  {| view := view s; debounceRef := debounceRef s;
     abortRef := Some (nextController s);
     cacheRef := cacheRef s; cleanup := cleanup s; timers := timers s;
     nextTimer := nextTimer s; aborted := aborted s;
     nextController := S (nextController s); fetches := fetches s;
     selections := selections s; fetchLog := fetchLog s;
     selectionLog := selectionLog s |}.

(** A call [fetchFn(q, { signal: controller.signal })] *)
Definition callFetchFn (c : nat) (q : string) (s : State) : State :=
  {| view := view s; debounceRef := debounceRef s; abortRef := abortRef s;
     cacheRef := cacheRef s; cleanup := cleanup s; timers := timers s;
     nextTimer := nextTimer s; aborted := aborted s;
     nextController := nextController s; fetches := fetches s;
     selections := selections s; fetchLog := fetchLog s ++ [(c, q)];
     selectionLog := selectionLog s |}.

(** A call [selectionFn(value, { signal: controller.signal })] *)
Definition callSelectionFn (c : nat) (value : string) (s : State) : State :=
  {| view := view s; debounceRef := debounceRef s; abortRef := abortRef s;
     cacheRef := cacheRef s; cleanup := cleanup s; timers := timers s;
     nextTimer := nextTimer s; aborted := aborted s;
     nextController := nextController s; fetches := fetches s;
     selections := selections s; fetchLog := fetchLog s;
     selectionLog := selectionLog s ++ [(c, value)] |}.

(** The state after mounting: the initial values of the [useState] and
    [useRef] cells; timer identifiers are positive. *)
Definition init : State :=
  {| view := {| input := ""; query := ""; suggestions := []; loading := false;
                error := None; highlight := (-1)%Z; noResults := false |};
     debounceRef := None; abortRef := None; cacheRef := []; cleanup := false;
     timers := ∅; nextTimer := 1; aborted := ∅; nextController := 0;
     fetches := ∅; selections := ∅; fetchLog := []; selectionLog := [] |}.

(** ** The actions returned by the hook *)

Definition clear (w : View) : View :=
  let w := setInput "" w in
  let w := setQuery "" w in
  let w := setSuggestions [] w in
  let w := setHighlight (-1) w in
  let w := setNoResults false w in
  setError None w.

Definition updateInput (p : UseAutocompleteParams) (val : string) (w : View) : View :=
  let w := setInput val w in
  let w := setHighlight (-1) w in
  if (Z.of_nat (String.length val) >=? minChars (destructure p))%Z then
    setQuery val w
  else
    let w := setQuery "" w in
    let w := setSuggestions [] w in
    let w := setNoResults false w in
    setError None w.

(** The updater passed to [setHighlight]: [prev] is the current
    highlight, [n] is [suggestions.length]. *)
Definition nextHighlight (n prev delta : Z) : Z :=
  if (n =? 0)%Z then (-1)%Z
  else
    let next := (prev + delta)%Z in
    let next := if (next <? 0)%Z then (n - 1)%Z else next in
    let next := if (next >=? n)%Z then 0%Z else next in
    next.

Definition moveHighlight (delta : Z) (w : View) : View :=
  setHighlight
    (nextHighlight (Z.of_nat (length (suggestions w))) (highlight w) delta) w.

Definition setHighlightIndex (idx : Z) (w : View) : View :=
  if ((idx <? -1) || (idx >=? Z.of_nat (length (suggestions w))))%Z then w
  else setHighlight idx w.

(** [if (debounceRef.current) window.clearTimeout(debounceRef.current)] *)
Definition clearDebounce (s : State) : State :=
  match debounceRef s with
  | Some id => clearTimeout id s
  | None => s
  end.

(** [if (abortRef.current) abortRef.current.abort()] *)
Definition abortCurrent (s : State) : State :=
  match abortRef s with
  | Some c => abort c s
  | None => s
  end.

(** The clean-up returned by the query effect when it armed a timer. *)
Definition runCleanup (s : State) : State :=
  if cleanup s then abortCurrent (clearDebounce s) else s.

(** The head of the retry loop, [attempt < maxAttempts], followed by the
    call of [fetchFn] at which the callback suspends.  When the test
    fails the async function returns. *)
Definition attemptFetch (p : UseAutocompleteParams) (c : nat) (q key : string)
    (attempt : Z) (s : State) : State :=
  if (attempt <? maxAttempts p)%Z then
    let s := callFetchFn c q s in
    setFetches
      (<[c := {| t_q := q; t_key := key; t_attempt := attempt;
                 t_phase := AwaitFetch |}]> (fetches s)) s
  else setFetches (delete c (fetches s)) s.

(** The debounce callback, from its start to the first [await]. *)
Definition timerCallback (p : UseAutocompleteParams) (tm : Timer) (s : State) : State :=
  let s := onView (setLoading true) s in
  let s := onView (setError None) s in
  let s := onView (setNoResults false) s in
  let c := nextController s in
  let s := newController s in
  attemptFetch p c (tm_q tm) (tm_key tm) 0 s.

(** The callback after [await fetchFn(...)] settled. *)
Definition fetchContinuation (p : UseAutocompleteParams) (c : nat) (t : Task)
    (o : Outcome) (s : State) : State :=
  match o with
  | Resolved data =>
      if bool_decide (c ∈ aborted s) then setFetches (delete c (fetches s)) s
      else
        let arr := toArray data in
        let s := setCacheRef
                   (cache_store (maxCache (destructure p)) (t_key t) arr (cacheRef s)) s in
        let s := onView (setSuggestions arr) s in
        let s := onView (setNoResults (isNil arr)) s in
        let s := onView (setLoading false) s in
        setFetches (delete c (fetches s)) s
  | Rejected =>
      if bool_decide (c ∈ aborted s) then setFetches (delete c (fetches s)) s
      else if (t_attempt t =? maxAttempts p - 1)%Z then
        let s := onView (setError (Some "Failed to fetch")) s in
        let s := onView (setSuggestions []) s in
        let s := onView (setLoading false) s in
        setFetches (delete c (fetches s)) s
      else
        setFetches
          (<[c := {| t_q := t_q t; t_key := t_key t; t_attempt := t_attempt t;
                     t_phase := AwaitBackoff (backoffBase p * (t_attempt t + 1)) |}]>
             (fetches s)) s
  end.

(** The query effect: the clean-up of its previous run, then its body. *)
Definition queryEffect (p : UseAutocompleteParams) (s : State) : State :=
  let s := runCleanup s in
  let s := clearDebounce s in
  let s := abortCurrent s in
  let q := Str.trim (query (view s)) in
  if Str.isEmpty q then setCleanup false s
  else
    let key := Str.toLowerCase q in
    match cache_get key (cacheRef s) with
    | Some data =>
        let s := onView (setSuggestions data) s in
        let s := onView (setNoResults (isNil data)) s in
        setCleanup false s
    | None =>
        let s := setTimeout {| tm_delay := debounceMs (destructure p);
                               tm_q := q; tm_key := key |} s in
        setCleanup true s
    end.

(** The second effect: reset an out-of-range highlight. *)
Definition highlightEffect (w : View) : View :=
  if (highlight w >=? Z.of_nat (length (suggestions w)))%Z
  then setHighlight (-1) w else w.

(** [handleSelection], from its start to [await selectionFn(...)]. *)
Definition handleSelection (p : UseAutocompleteParams) (value : string) (s : State) : State :=
  if selectionFn (destructure p) then
    let s := onView (setLoading true) s in
    let s := onView (setError None) s in
    let s := onView (setNoResults false) s in
    let c := nextController s in
    let s := newController s in
    let s := callSelectionFn c value s in
    setSelections ({[c]} ∪ selections s) s
  else s.

(** [handleSelection] after [await selectionFn(...)] settled. *)
Definition selectionContinuation (c : nat) (o : Outcome) (s : State) : State :=
  let s := setSelections (selections s ∖ {[c]}) s in
  match o with
  | Resolved data =>
      if bool_decide (c ∈ aborted s) then s
      else
        let arr := toArray data in
        let s := onView (setSuggestions arr) s in
        let s := onView (setNoResults (isNil arr)) s in
        let s := onView (setLoading false) s in
        onView (setHighlight (-1)) s
  | Rejected =>
      if bool_decide (c ∈ aborted s) then s
      else
        let s := onView (setError (Some "Failed to fetch related suggestions")) s in
        let s := onView (setSuggestions []) s in
        onView (setLoading false) s
  end.

(** ** Events and the step function *)

Inductive Event :=
| UpdateInput (val : string)
| Clear
| MoveHighlight (delta : Z)
| SetHighlightIndex (idx : Z)
| SetSuggestions (sugs : list T)
| HandleSelection (value : string)
| TimerFire (id : nat)
| FetchSettled (c : nat) (o : Outcome)
| BackoffElapsed (c : nat)
| SelectionSettled (c : nat) (o : Outcome).

(** The handler of one event.  A completion that nothing waits for (a
    timer that was cleared, a controller without a suspended function in
    the matching phase) does not happen: the state is unchanged. *)
Definition handle (p : UseAutocompleteParams) (e : Event) (s : State) : State :=
  match e with
  | UpdateInput val => onView (updateInput p val) s
  | Clear => onView clear s
  | MoveHighlight delta => onView (moveHighlight delta) s
  | SetHighlightIndex idx => onView (setHighlightIndex idx) s
  | SetSuggestions sugs => onView (setSuggestions sugs) s
  | HandleSelection value => handleSelection p value s
  | TimerFire id =>
      match timers s !! id with
      | Some tm => timerCallback p tm (clearTimeout id s)
      | None => s
      end
  | FetchSettled c o =>
      match fetches s !! c with
      | Some t =>
          match t_phase t with
          | AwaitFetch => fetchContinuation p c t o s
          | AwaitBackoff _ => s
          end
      | None => s
      end
  | BackoffElapsed c =>
      match fetches s !! c with
      | Some t =>
          match t_phase t with
          | AwaitBackoff _ => attemptFetch p c (t_q t) (t_key t) (t_attempt t + 1) s
          | AwaitFetch => s
          end
      | None => s
      end
  | SelectionSettled c o =>
      if bool_decide (c ∈ selections s) then selectionContinuation c o s else s
  end.

(** The effects after the render that follows an event: the query effect
    runs when [query] changed, then the highlight effect. *)
Definition afterRender (p : UseAutocompleteParams) (before : string) (s : State) : State :=
  let s := if bool_decide (query (view s) = before) then s else queryEffect p s in
  onView highlightEffect s.

Definition step (p : UseAutocompleteParams) (s : State) (e : Event) : State :=
  afterRender p (query (view s)) (handle p e s).

Definition run (p : UseAutocompleteParams) (s : State) (es : list Event) : State :=
  fold_left (step p) es s.

Definition reachable (p : UseAutocompleteParams) (s : State) : Prop :=
  ∃ es, s = run p init es.

(** A state is settled when the highlight effect has nothing to reset. *)
Definition settled (s : State) : Prop := highlightEffect (view s) = view s.

(** The number of calls of [fetchFn] made under controller [c]. *)
Definition calls (c : nat) (s : State) : nat :=
  length (filter (λ x, x.1 = c) (fetchLog s)).

(** The bookkeeping of the retry loop: a suspended callback at attempt
    [i] has made [i + 1] calls, and a callback in back-off has an attempt
    left. *)
Definition attempts_ok (p : UseAutocompleteParams) (s : State) : Prop :=
  (∀ c t, fetches s !! c = Some t →
     c < nextController s ∧ (0 ≤ t_attempt t)%Z ∧
     Z.of_nat (calls c s) = (t_attempt t + 1)%Z ∧
     (t_attempt t +
        match t_phase t with AwaitFetch => 0 | AwaitBackoff _ => 1 end
      < maxAttempts p)%Z) ∧
  (∀ c, (Z.of_nat (calls c s) ≤ maxAttempts p)%Z) ∧
  (∀ c, nextController s ≤ c → calls c s = 0).

(** No key held by the cache, by a suspended callback or by an armed
    timer is the empty string. *)
Definition keys_ok (s : State) : Prop :=
  (∀ k, k ∈ (cacheRef s).*1 → k ≠ EmptyString) ∧
  (∀ c t, fetches s !! c = Some t → t_key t ≠ EmptyString) ∧
  (∀ id tm, timers s !! id = Some tm → tm_key tm ≠ EmptyString).

End Hook.

Arguments Payload : clear implicits.
Arguments Outcome : clear implicits.
Arguments View : clear implicits.
Arguments State : clear implicits.
Arguments Event : clear implicits.

(** ** Complete fetches

    The key the query effect derives from a query, and the entry the
    success path writes for it. *)
Definition cacheKey (q : string) : string := Str.toLowerCase (Str.trim q).

Definition cacheEntry {T} (qd : string * Payload T) : string * list T :=
  (cacheKey qd.1, toArray qd.2).

(** One complete fetch from state [s]: the text is typed, the timer the
    query effect arms fires, and [fetchFn] resolves.  The timer and the
    controller are the next ones the environment hands out. *)
Definition fetchRound {T} (p : UseAutocompleteParams) (s : State T)
    (qd : string * Payload T) : State T :=
  run p s [UpdateInput qd.1; TimerFire (nextTimer s);
           FetchSettled (nextController s) (Resolved qd.2)].

Definition fetchRounds {T} (p : UseAutocompleteParams)
    (qds : list (string * Payload T)) (s : State T) : State T :=
  fold_left (fetchRound p) qds s.

(** ** Parameters and traces used in examples *)

(** Every option left to its default, no [selectionFn]. *)
Definition hit_params : UseAutocompleteParams :=
  {| p_selectionFn := false; p_debounceMs := None; p_minChars := None;
     p_maxCache := None |}.

(** Every option left to its default, with a [selectionFn]. *)
Definition sel_params : UseAutocompleteParams :=
  {| p_selectionFn := true; p_debounceMs := None; p_minChars := None;
     p_maxCache := None |}.

(** "ap" is typed, fetched and cached; then the input is cleared. *)
Definition hit_trace : list (Event string) :=
  [UpdateInput "ap"; TimerFire 1;
   FetchSettled 0 (Resolved (IsArray ["apple"; "apricot"])); Clear].

(** A cache with room for two entries. *)
Definition small_cache_params : UseAutocompleteParams :=
  {| p_selectionFn := false; p_debounceMs := None; p_minChars := None;
     p_maxCache := Some 2%Z |}.

(** Three queries with their results. *)
Definition three_fetches : list (string * Payload string) :=
  [("a", IsArray ["apple"]); ("b", IsArray ["banana"]);
   ("c", IsArray ["cherry"])].

(** ** Further invariants of the state machine *)

Section Invariants.
Context {T : Type}.

(** The one armed timer, if any, is the one [debounceRef] holds, and
    timer identifiers are handed out in increasing order. *)
Definition timers_ok (s : State T) : Prop :=
  (∀ id tm, timers s !! id = Some tm → debounceRef s = Some id) ∧
  (∀ id, debounceRef s = Some id → id < nextTimer s).

(** Controllers are handed out in increasing order. *)
Definition controllers_ok (s : State T) : Prop :=
  (∀ c, c ∈ aborted s → c < nextController s) ∧
  (∀ c, abortRef s = Some c → c < nextController s) ∧
  (∀ c, c ∈ selections s → c < nextController s).

End Invariants.

Section Normalisation.
Context {T : Type}.

(** What the effect passes on as [q]: the trimmed form of a query, not
    empty. *)
Definition trimmed_query (q : string) : Prop :=
  q ≠ EmptyString ∧ ∃ raw, q = Str.trim raw.

(** Queries and keys in use are normalised: every armed timer and every
    suspended callback holds a trimmed query and its lower-cased form as
    key, [fetchFn] was only called with trimmed queries, and the keys of
    the cache are lower-case. *)
Definition normalised (s : State T) : Prop :=
  (∀ k, k ∈ (cacheRef s).*1 → Str.toLowerCase k = k) ∧
  (∀ id tm, timers s !! id = Some tm →
     trimmed_query (tm_q tm) ∧ tm_key tm = Str.toLowerCase (tm_q tm)) ∧
  (∀ c t, fetches s !! c = Some t →
     trimmed_query (t_q t) ∧ t_key t = Str.toLowerCase (t_q t)) ∧
  (∀ c q, (c, q) ∈ fetchLog s → trimmed_query q).

End Normalisation.

(** ** The component (AutoComplete.tsx)

    The component instantiates the hook with strings as items.  Its
    handlers call the hook's actions; the updates one handler queues are
    applied together, and the effects run once, after the render that
    follows the handler. *)

(** [handleSelect(word)]: [updateInput(word)], [setSuggestions([])], the
    caller's [onSelect] (which does not touch the hook) and
    [handleSelection(word)] up to its [await], in one handler. *)
Definition handleSelect (p : UseAutocompleteParams) (word : string)
    (s : State string) : State string :=
  let before := query (view s) in
  let s := onView (updateInput p word) s in
  let s := onView (setSuggestions []) s in
  let s := handleSelection p word s in
  afterRender p before s.

(** The values of [e.key] the handler tells apart. *)
Inductive Key :=
| ArrowDown | ArrowUp | Enter | Tab | Home | EndKey | Escape | OtherKey.

(** [highlight >= 0 && suggestions[highlight]]: the highlighted item,
    when there is one and it is not the empty string. *)
Definition highlighted (w : View string) : option string :=
  if (highlight w >=? 0)%Z then
    match suggestions w !! Z.to_nat (highlight w) with
    | Some word => if Str.isEmpty word then None else Some word
    | None => None
    end
  else None.

(** [setHighlightIndex(idx)] called after other updates were queued in
    the same handler: its bounds test reads the suggestions of the
    render the callback was created in, [rendered]. *)
Definition setHighlightIndexOf (rendered : View string) (idx : Z)
    (w : View string) : View string :=
  if ((idx <? -1) || (idx >=? Z.of_nat (length (suggestions rendered))))%Z
  then w else setHighlight idx w.

(** [handleKeyDown]; scrolling and [preventDefault] act on the document
    only and are left out. *)
Definition handleKeyDown (p : UseAutocompleteParams) (key : Key)
    (s : State string) : State string :=
  match key with
  | ArrowDown => step p s (MoveHighlight 1)
  | ArrowUp => step p s (MoveHighlight (-1))
  | Enter | Tab =>
      match highlighted (view s) with
      | Some word => handleSelect p word s
      | None => s
      end
  | Home => step p s (SetHighlightIndex 0)
  | EndKey =>
      step p s (SetHighlightIndex (Z.of_nat (length (suggestions (view s))) - 1))
  | Escape =>
      if negb (isNil (suggestions (view s))) then
        afterRender p (query (view s))
          (onView (setHighlightIndexOf (view s) (-1))
             (onView (setSuggestions []) s))
      else if negb (Str.isEmpty (input (view s))) then step p s Clear
      else s
  | OtherKey => s
  end.

(** What [renderWord] returns: the word as it is, or the word cut in
    three with the middle part inside [<mark>]. *)
Inductive Rendered :=
| Plain (word : string)
| Marked (before mark after : string).

(** [s.indexOf(pat)], with [None] for -1. *)
Definition indexOf (s pat : string) : option nat := String.index 0 pat s.

(** [s.slice(a, b)] and [s.slice(a)] for [0 <= a <= b]. *)
Definition slice (a b : nat) (s : string) : string :=
  String.substring a (b - a) s.

Definition sliceFrom (a : nat) (s : string) : string :=
  String.substring a (String.length s - a) s.

(** [renderWord].  The full [String.prototype.toLowerCase] follows the
    Unicode case tables and may change the length of a string, so the
    function is modelled over any lower-casing [toLowerCase]; the index
    found in the lower-cased word is used on the word itself, as in the
    source. *)
Definition renderWord (toLowerCase : string → string) (highlightMatch : bool)
    (inp word : string) : Rendered :=
  if negb highlightMatch then Plain word
  else
    match indexOf (toLowerCase word) (toLowerCase inp) with
    | None => Plain word
    | Some idx =>
        if Str.isEmpty inp then Plain word
        else
          Marked (slice 0 idx word)
                 (slice idx (idx + String.length inp) word)
                 (sliceFrom (idx + String.length inp) word)
    end.

(** A lower-casing that works code unit by code unit: it keeps lengths
    and commutes with taking substrings. *)
Definition codeUnitWise (f : string → string) : Prop :=
  (∀ s, String.length (f s) = String.length s) ∧
  (∀ s n m, f (String.substring n m s) = String.substring n m (f s)).

(** The text a rendered word shows. *)
Definition renderedText (r : Rendered) : string :=
  match r with
  | Plain word => word
  | Marked before mark after => before +:+ mark +:+ after
  end.

(** * Properties *)

(** ** Strings *)

Lemma toLowerCase_empty_iff (s : string) :
  Str.toLowerCase s = EmptyString ↔ s = EmptyString.
Proof. destruct s; simpl; split; intros H; congruence. Qed.

Lemma isEmpty_true_iff (s : string) : Str.isEmpty s = true ↔ s = EmptyString.
Proof. destruct s; simpl; split; intros H; congruence. Qed.

Lemma isEmpty_false_iff (s : string) : Str.isEmpty s = false ↔ s ≠ EmptyString.
Proof. destruct s; simpl; split; intros H; congruence. Qed.

(** ** The cache *)

Section CacheFacts.
Context {T : Type}.
Implicit Types (c : list (string * list T)) (k key : string) (v : list T).

Lemma cache_get_Some_in key c v :
  cache_get key c = Some v → key ∈ c.*1.
Proof.
  induction c as [|[k w] r IH]; simpl; [discriminate|].
  case_decide as Hk; intros H.
  - subst k. apply list_elem_of_here.
  - apply list_elem_of_further, IH, H.
Qed.

Lemma cache_set_fresh key v c :
  key ∉ c.*1 → cache_set key v c = c ++ [(key, v)].
Proof.
  induction c as [|[k w] r IH]; simpl; intros Hnin; [done|].
  apply not_elem_of_cons in Hnin as [Hne Hr].
  rewrite decide_False by congruence. by rewrite IH.
Qed.

Lemma cache_set_present key v c :
  key ∈ c.*1 → (cache_set key v c).*1 = c.*1.
Proof.
  induction c as [|[k w] r IH]; simpl; intros Hin.
  - by apply elem_of_nil in Hin.
  - case_decide as Hk; simpl; [done|].
    apply elem_of_cons in Hin as [Heq|Hr]; [simpl in Heq; congruence|].
    f_equal. by apply IH.
Qed.

Lemma cache_set_length key v c :
  length (cache_set key v c) ≤ S (length c).
Proof.
  induction c as [|[k w] r IH]; simpl; [lia|].
  case_decide; simpl; lia.
Qed.

Lemma cache_set_keys key v c k :
  k ∈ (cache_set key v c).*1 → k = key ∨ k ∈ c.*1.
Proof.
  induction c as [|[k' w] r IH]; simpl.
  - intros Hin. apply list_elem_of_singleton in Hin. by left.
  - case_decide as Hk; simpl; intros Hin.
    + by right.
    + apply elem_of_cons in Hin as [->|Hin].
      * right. apply list_elem_of_here.
      * destruct (IH Hin) as [->|Hr]; [by left|].
        right. by apply list_elem_of_further.
Qed.

Lemma cache_delete_head k w c : cache_delete k ((k, w) :: c) = c.
Proof. simpl. by rewrite decide_True. Qed.

Lemma cache_delete_keys key c k :
  k ∈ (cache_delete key c).*1 → k ∈ c.*1.
Proof.
  induction c as [|[k' w] r IH]; simpl; [done|].
  case_decide as Hk; simpl; intros Hin.
  - by apply list_elem_of_further.
  - apply elem_of_cons in Hin as [->|Hin]; [apply list_elem_of_here|].
    by apply list_elem_of_further, IH.
Qed.

(** [cache_store] is [set] followed by dropping the head on overflow. *)
Lemma cache_store_unfold (m : Z) key v c :
  cache_store m key v c =
    if (m <? Z.of_nat (length (cache_set key v c)))%Z
    then tail (cache_set key v c) else cache_set key v c.
Proof.
  unfold cache_store. destruct (cache_set key v c) as [|[k w] r] eqn:E.
  - by destruct (m <? _)%Z.
  - rewrite cache_delete_head. done.
Qed.

Lemma cache_store_length (m : Z) key v c :
  (0 ≤ m)%Z → (Z.of_nat (length c) ≤ m)%Z →
  (Z.of_nat (length (cache_store m key v c)) ≤ m)%Z.
Proof.
  intros Hm Hc. rewrite cache_store_unfold.
  pose proof (cache_set_length key v c) as Hl.
  destruct (Z.ltb_spec m (Z.of_nat (length (cache_set key v c)))) as [Hlt|Hge].
  - rewrite length_tl. lia.
  - exact Hge.
Qed.

Lemma cache_store_keys (m : Z) key v c k :
  k ∈ (cache_store m key v c).*1 → k = key ∨ k ∈ c.*1.
Proof.
  rewrite cache_store_unfold. destruct (m <? _)%Z; intros Hin.
  - apply (cache_set_keys key v c k).
    destruct (cache_set key v c) as [|x r]; simpl in *; [done|].
    by apply list_elem_of_further.
  - by apply cache_set_keys in Hin.
Qed.

(** Overflow of a full cache by a new key: the head goes, the rest stays
    in order and the new entry is last. *)
Lemma cache_store_overflow (m : Z) key v k0 v0 rest :
  key ∉ ((k0, v0) :: rest).*1 →
  Z.of_nat (length ((k0, v0) :: rest)) = m →
  cache_store m key v ((k0, v0) :: rest) = rest ++ [(key, v)].
Proof.
  intros Hfresh Hlen. rewrite cache_store_unfold, cache_set_fresh by done.
  rewrite length_app. simpl in *.
  destruct (Z.ltb_spec m (Z.of_nat (S (length rest + 1)))) as [_|Hge]; [done|lia].
Qed.

(** Storing below capacity keeps every entry. *)
Lemma cache_store_room (m : Z) key v c :
  key ∉ c.*1 → (Z.of_nat (length c) < m)%Z →
  cache_store m key v c = c ++ [(key, v)].
Proof.
  intros Hfresh Hlen. rewrite cache_store_unfold, cache_set_fresh by done.
  rewrite length_app. simpl.
  destruct (Z.ltb_spec m (Z.of_nat (length c + 1))) as [Hlt|_]; [lia|done].
Qed.

Lemma storeAll_snoc (m : Z) (kvs : list (string * list T)) k v :
  storeAll m (kvs ++ [(k, v)]) = cache_store m k v (storeAll m kvs).
Proof. unfold storeAll. by rewrite fold_left_app. Qed.

(** Inserting entries with pairwise distinct keys into an empty cache
    keeps exactly the last [maxCache] of them, in insertion order. *)
Lemma storeAll_distinct (m : Z) (kvs : list (string * list T)) :
  (0 ≤ m)%Z → NoDup kvs.*1 →
  storeAll m kvs = drop (length kvs - Z.to_nat m) kvs.
Proof.
  intros Hm. induction kvs as [|[k v] kvs IH] using rev_ind; intros Hnd; [done|].
  rewrite fmap_app in Hnd. apply NoDup_app in Hnd as (Hnd & Hk & _).
  rewrite storeAll_snoc, IH by done.
  assert (k ∉ (drop (length kvs - Z.to_nat m) kvs).*1) as Hfresh.
  { intros Hin. rewrite fmap_drop in Hin. apply subseteq_drop in Hin.
    apply (Hk k Hin). simpl. apply list_elem_of_here. }
  rewrite length_app. simpl.
  destruct (decide (length kvs < Z.to_nat m)) as [Hlt|Hge].
  - rewrite cache_store_room; [| done | rewrite length_drop; lia].
    replace (length kvs - Z.to_nat m) with 0 by lia.
    replace (length kvs + 1 - Z.to_nat m) with 0 by lia. done.
  - rewrite cache_store_unfold, cache_set_fresh by done.
    rewrite length_app, length_drop. simpl.
    destruct (Z.ltb_spec m (Z.of_nat (length kvs - (length kvs - Z.to_nat m) + 1)))
      as [_|Hle]; [|lia].
    replace (length kvs + 1 - Z.to_nat m) with (S (length kvs - Z.to_nat m)) by lia.
    rewrite <- (drop_app_le kvs [(k, v)]) by lia.
    generalize (length kvs - Z.to_nat m) as d. intros d.
    replace (S d) with (d + 1) by lia.
    rewrite <- (drop_drop (kvs ++ [(k, v)]) 1 d).
    by destruct (drop d (kvs ++ [(k, v)])).
Qed.

End CacheFacts.

(** ** The step function: frames and monotonicity *)

Section HookFacts.
Context {T : Type}.
Implicit Types (s : State T) (w : View T) (p : UseAutocompleteParams)
  (e : Event T) (o : Outcome T) (c : nat).

Ltac unfold_effect :=
  unfold queryEffect, runCleanup, clearDebounce, abortCurrent.

Ltac effect_cases s :=
  unfold_effect;
  destruct s as [w [dr|] [ar|] cr [] tms nt ab nc fs sels fl sl]; simpl;
  (destruct (Str.isEmpty _) eqn:Hq; simpl;
   [|destruct (cache_get _ _) eqn:Hget; simpl]).

Ltac unfold_handlers :=
  unfold timerCallback, fetchContinuation, attemptFetch, handleSelection,
    selectionContinuation.

(** Every field of the state is decided by case analysis on the
    references the code tests. *)
Ltac crush_state s :=
  destruct s as [w dr ar cr cl tms nt ab nc fs sels fl sl]; simpl in *;
  try done; repeat (case_match; simpl in *; try done).

Lemma run_snoc p s es e : run p s (es ++ [e]) = step p (run p s es) e.
Proof. unfold run. by rewrite fold_left_app. Qed.

Lemma reachable_init p : reachable p (@init T).
Proof. by exists []. Qed.

Lemma reachable_step p s e : reachable p s → reachable p (step p s e).
Proof. intros [es ->]. exists (es ++ [e]). by rewrite run_snoc. Qed.

Lemma reachable_ind p (P : State T → Prop) :
  P init →
  (∀ s e, reachable p s → P s → P (step p s e)) →
  ∀ s, reachable p s → P s.
Proof.
  intros Hinit Hstep s [es ->].
  induction es as [|e es IH] using rev_ind; [exact Hinit|].
  rewrite run_snoc. apply Hstep; [by exists es | exact IH].
Qed.

(** *** The query effect *)

Lemma queryEffect_cacheRef p s : cacheRef (queryEffect p s) = cacheRef s.
Proof. effect_cases s; done. Qed.

Lemma queryEffect_fetches p s : fetches (queryEffect p s) = fetches s.
Proof. effect_cases s; done. Qed.

Lemma queryEffect_selections p s : selections (queryEffect p s) = selections s.
Proof. effect_cases s; done. Qed.

Lemma queryEffect_fetchLog p s : fetchLog (queryEffect p s) = fetchLog s.
Proof. effect_cases s; done. Qed.

Lemma queryEffect_selectionLog p s :
  selectionLog (queryEffect p s) = selectionLog s.
Proof. effect_cases s; done. Qed.

Lemma queryEffect_nextController p s :
  nextController (queryEffect p s) = nextController s.
Proof. unfold_effect. crush_state s. Qed.

Lemma queryEffect_abortRef p s : abortRef (queryEffect p s) = abortRef s.
Proof. effect_cases s; done. Qed.

Lemma queryEffect_aborted_mono p s c :
  c ∈ aborted s → c ∈ aborted (queryEffect p s).
Proof. effect_cases s; set_solver. Qed.

(** The effect aborts the controller that [abortRef] holds. *)
Lemma queryEffect_aborts_current p s c :
  abortRef s = Some c → c ∈ aborted (queryEffect p s).
Proof. effect_cases s; intros; simplify_eq; set_solver. Qed.

(** The effect leaves [input], [query], [loading], [error] and
    [highlight] alone. *)
Lemma queryEffect_view_frame p s :
  let w' := view (queryEffect p s) in
  input w' = input (view s) ∧ query w' = query (view s) ∧
  loading w' = loading (view s) ∧ error w' = error (view s) ∧
  highlight w' = highlight (view s).
Proof. effect_cases s; done. Qed.

(** *** The highlight effect *)

Lemma highlightEffect_idem w : highlightEffect (highlightEffect w) = highlightEffect w.
Proof.
  unfold highlightEffect.
  destruct (Z.geb_spec (highlight w) (Z.of_nat (length (suggestions w)))) as [H|H];
    simpl.
  - destruct (Z.geb_spec (-1) (Z.of_nat (length (suggestions w)))); [lia|done].
  - destruct (Z.geb_spec (highlight w) (Z.of_nat (length (suggestions w))));
      [lia|done].
Qed.

Lemma step_settled p s e : settled (step p s e).
Proof.
  unfold settled, step, afterRender. simpl. apply highlightEffect_idem.
Qed.

Lemma reachable_settled p s : reachable p s → settled s.
Proof.
  apply (reachable_ind p settled); [done|]. intros. apply step_settled.
Qed.

(** An event whose handler leaves the view alone leaves it alone after
    the effects too. *)
Lemma step_view_unchanged p s e :
  settled s → view (handle p e s) = view s → view (step p s e) = view s.
Proof.
  intros Hs Hv. unfold step, afterRender.
  rewrite Hv, bool_decide_true by done. simpl. by rewrite Hv.
Qed.

(** *** After-render effects: what they cannot touch *)

Lemma afterRender_cacheRef p b s : cacheRef (afterRender p b s) = cacheRef s.
Proof.
  unfold afterRender. case_bool_decide; simpl; [done|apply queryEffect_cacheRef].
Qed.

Lemma afterRender_fetches p b s : fetches (afterRender p b s) = fetches s.
Proof.
  unfold afterRender. case_bool_decide; simpl; [done|apply queryEffect_fetches].
Qed.

Lemma afterRender_selections p b s :
  selections (afterRender p b s) = selections s.
Proof.
  unfold afterRender. case_bool_decide; simpl; [done|apply queryEffect_selections].
Qed.

Lemma afterRender_fetchLog p b s : fetchLog (afterRender p b s) = fetchLog s.
Proof.
  unfold afterRender. case_bool_decide; simpl; [done|apply queryEffect_fetchLog].
Qed.

Lemma afterRender_selectionLog p b s :
  selectionLog (afterRender p b s) = selectionLog s.
Proof.
  unfold afterRender. case_bool_decide; simpl; [done|apply queryEffect_selectionLog].
Qed.

Lemma afterRender_nextController p b s :
  nextController (afterRender p b s) = nextController s.
Proof.
  unfold afterRender. case_bool_decide; simpl;
    [done|apply queryEffect_nextController].
Qed.

Lemma afterRender_aborted_mono p b s c :
  c ∈ aborted s → c ∈ aborted (afterRender p b s).
Proof.
  unfold afterRender. case_bool_decide; simpl; [done|apply queryEffect_aborted_mono].
Qed.

(** *** Handlers: what they cannot touch *)

Lemma handle_aborted p e s : aborted (handle p e s) = aborted s.
Proof. destruct e; unfold handle; unfold_handlers; crush_state s. Qed.

Lemma step_aborted_mono p s e c : c ∈ aborted s → c ∈ aborted (step p s e).
Proof.
  intros Hc. unfold step. apply afterRender_aborted_mono.
  by rewrite handle_aborted.
Qed.

Lemma run_aborted_mono p s es c : c ∈ aborted s → c ∈ aborted (run p s es).
Proof.
  revert s. induction es as [|e es IH]; intros s Hc; [done|].
  simpl. by apply IH, step_aborted_mono.
Qed.

(** The only write to the cache is the store of a resolved fetch whose
    controller is not aborted. *)
Lemma handle_cacheRef p e s :
  cacheRef (handle p e s) = cacheRef s ∨
  ∃ c t d, e = FetchSettled c (Resolved d) ∧ fetches s !! c = Some t ∧
    (c ∉ aborted s) ∧
    cacheRef (handle p e s) =
      cache_store (maxCache (destructure p)) (t_key t) (toArray d) (cacheRef s).
Proof.
  destruct e as [| | | | | |id|c o|c|c o]; unfold handle; unfold_handlers;
    try (left; crush_state s; fail).
  destruct (fetches s !! c) as [t|] eqn:Ht; [|by left].
  destruct (t_phase t); [|by left].
  destruct o as [d|]; [|left; crush_state s].
  case_bool_decide as Hab; [left; crush_state s|].
  right. exists c, t, d. repeat split; try done.
Qed.

(** A fetch that settles under an aborted controller changes neither the
    view nor the cache. *)
Lemma fetchSettled_aborted p s c o :
  c ∈ aborted s →
  view (handle p (FetchSettled c o) s) = view s ∧
  cacheRef (handle p (FetchSettled c o) s) = cacheRef s.
Proof.
  intros Hc. unfold handle, fetchContinuation.
  destruct (fetches s !! c) as [t|]; [|done].
  destruct (t_phase t); [|done].
  destruct o; rewrite bool_decide_true by done; done.
Qed.

Lemma step_fetchSettled_aborted p s c o :
  settled s → c ∈ aborted s →
  view (step p s (FetchSettled c o)) = view s ∧
  cacheRef (step p s (FetchSettled c o)) = cacheRef s.
Proof.
  intros Hs Hc. destruct (fetchSettled_aborted p s c o Hc) as [Hv Hcache].
  split; [by apply step_view_unchanged|].
  unfold step. by rewrite afterRender_cacheRef.
Qed.

(** A change of [query] aborts the controller in [abortRef]. *)
Lemma step_updateInput_aborts p s c val :
  abortRef s = Some c →
  query (view (step p s (UpdateInput val))) ≠ query (view s) →
  c ∈ aborted (step p s (UpdateInput val)).
Proof.
  unfold step, afterRender. simpl. intros Href Hq.
  case_bool_decide as Hchanged.
  - exfalso. apply Hq. revert Hchanged. simpl.
    unfold highlightEffect. by case_match.
  - simpl. by apply queryEffect_aborts_current.
Qed.

(** While [abortRef] still holds the controller of the fetch in flight,
    a change of query makes every later settlement of that fetch a
    no-op, whatever happens in between. *)
Lemma superseded_fetch_discarded p s c val es o :
  abortRef s = Some c →
  query (view (step p s (UpdateInput val))) ≠ query (view s) →
  let s1 := run p (step p s (UpdateInput val)) es in
  view (step p s1 (FetchSettled c o)) = view s1 ∧
  cacheRef (step p s1 (FetchSettled c o)) = cacheRef s1.
Proof.
  intros Href Hq s1. apply step_fetchSettled_aborted.
  - subst s1. destruct es as [|e es] using rev_ind; [apply step_settled|].
    rewrite run_snoc. apply step_settled.
  - by apply run_aborted_mono, step_updateInput_aborts.
Qed.

(** *** Invariant: the cache never exceeds [maxCache] *)

Lemma step_cache_bound p s e :
  (0 ≤ maxCache (destructure p))%Z →
  (Z.of_nat (length (cacheRef s)) ≤ maxCache (destructure p))%Z →
  (Z.of_nat (length (cacheRef (step p s e))) ≤ maxCache (destructure p))%Z.
Proof.
  intros Hm Hs. unfold step. rewrite afterRender_cacheRef.
  destruct (handle_cacheRef p e s) as [->|(c & t & d & _ & _ & _ & ->)]; [done|].
  by apply cache_store_length.
Qed.

Lemma reachable_cache_bound p s :
  (0 ≤ maxCache (destructure p))%Z → reachable p s →
  (Z.of_nat (length (cacheRef s)) ≤ maxCache (destructure p))%Z.
Proof.
  intros Hm. revert s. apply reachable_ind; [exact Hm|].
  intros s e _ IH. by apply step_cache_bound.
Qed.

(** *** Invariant: every key in use comes from a non-empty query *)

Lemma keys_ok_init : keys_ok (@init T).
Proof. split; [|split]; simpl; [intros k Hk; by apply elem_of_nil in Hk|done|done]. Qed.

Lemma keys_ok_onView f s : keys_ok s → keys_ok (onView f s).
Proof. by intros (?&?&?). Qed.

Lemma timers_ok_insert (tms : gmap nat Timer) id tm :
  (∀ i t, tms !! i = Some t → tm_key t ≠ EmptyString) →
  tm_key tm ≠ EmptyString →
  ∀ i t, <[id:=tm]> tms !! i = Some t → tm_key t ≠ EmptyString.
Proof. intros H Htm i t [[_ <-]|[_ Hl]]%lookup_insert_Some; eauto. Qed.

Lemma timers_ok_delete (tms : gmap nat Timer) id :
  (∀ i t, tms !! i = Some t → tm_key t ≠ EmptyString) →
  ∀ i t, delete id tms !! i = Some t → tm_key t ≠ EmptyString.
Proof. intros H i t [_ Hl]%lookup_delete_Some. eauto. Qed.

Lemma tasks_ok_insert (fs : gmap nat Task) c t0 :
  (∀ i t, fs !! i = Some t → t_key t ≠ EmptyString) →
  t_key t0 ≠ EmptyString →
  ∀ i t, <[c:=t0]> fs !! i = Some t → t_key t ≠ EmptyString.
Proof. intros H Htm i t [[_ <-]|[_ Hl]]%lookup_insert_Some; eauto. Qed.

Lemma tasks_ok_delete (fs : gmap nat Task) c :
  (∀ i t, fs !! i = Some t → t_key t ≠ EmptyString) →
  ∀ i t, delete c fs !! i = Some t → t_key t ≠ EmptyString.
Proof. intros H i t [_ Hl]%lookup_delete_Some. eauto. Qed.

Lemma toLowerCase_nonempty q :
  Str.isEmpty q = false → Str.toLowerCase q ≠ EmptyString.
Proof. rewrite toLowerCase_empty_iff. apply isEmpty_false_iff. Qed.

Ltac keys_goal :=
  repeat first [apply timers_ok_insert | apply timers_ok_delete
               | apply tasks_ok_insert | apply tasks_ok_delete];
  try done.

Lemma keys_ok_queryEffect p s : keys_ok s → keys_ok (queryEffect p s).
Proof.
  intros (Hc & Hf & Ht).
  effect_cases s; simpl in *; (split; [|split]); simpl; try done;
    keys_goal; simpl; by apply toLowerCase_nonempty.
Qed.

Lemma keys_ok_handle p e s : keys_ok s → keys_ok (handle p e s).
Proof.
  intros (Hc & Hf & Ht).
  destruct e as [| | | | | |id|c o|c|c o]; unfold handle;
    try (by apply keys_ok_onView).
  - unfold handleSelection. by case_match.
  - destruct (timers s !! id) as [tm|] eqn:Htm; [|done].
    unfold timerCallback, attemptFetch. specialize (Ht _ _ Htm) as Hk.
    case_match; (split; [|split]); simpl; try done; keys_goal.
  - destruct (fetches s !! c) as [t|] eqn:Hfc; [|done].
    destruct (t_phase t); [|done]. specialize (Hf _ _ Hfc) as Hk.
    unfold fetchContinuation.
    destruct o; repeat case_match; (split; [|split]); simpl; try done;
      keys_goal.
    intros k Hin. apply cache_store_keys in Hin as [->|Hin]; auto.
  - destruct (fetches s !! c) as [t|] eqn:Hfc; [|done].
    destruct (t_phase t); [done|]. specialize (Hf _ _ Hfc) as Hk.
    unfold attemptFetch.
    case_match; (split; [|split]); simpl; try done; keys_goal.
  - case_bool_decide; [|done]. unfold selectionContinuation.
    destruct o; repeat case_match; done.
Qed.

Lemma keys_ok_step p s e : keys_ok s → keys_ok (step p s e).
Proof.
  intros H. unfold step, afterRender. apply keys_ok_onView.
  case_bool_decide; [|apply keys_ok_queryEffect]; by apply keys_ok_handle.
Qed.

Lemma reachable_keys_ok p s : reachable p s → keys_ok s.
Proof.
  apply (reachable_ind p keys_ok); [apply keys_ok_init|].
  intros; by apply keys_ok_step.
Qed.

(** *** Invariant: the bookkeeping of the retry loop *)

Lemma maxAttempts_pos p : (0 < maxAttempts p)%Z.
Proof. done. Qed.

Lemma calls_callFetchFn c c0 q s :
  calls c (callFetchFn c0 q s) = calls c s + (if decide (c0 = c) then 1 else 0).
Proof.
  unfold calls. simpl. rewrite filter_app, length_app. f_equal.
  rewrite filter_cons, filter_nil. simpl. by case_decide.
Qed.

Lemma attempts_ok_ext p s s' :
  fetches s' = fetches s → fetchLog s' = fetchLog s →
  nextController s' = nextController s →
  attempts_ok p s → attempts_ok p s'.
Proof.
  unfold attempts_ok, calls. intros -> -> ->. done.
Qed.

Lemma attempts_ok_init p : attempts_ok p (@init T).
Proof.
  split; [|split]; simpl; [done| |done].
  intros c. unfold calls. simpl. pose proof (maxAttempts_pos p). lia.
Qed.

Lemma attempts_ok_delete p s c :
  attempts_ok p s → attempts_ok p (setFetches (delete c (fetches s)) s).
Proof.
  intros (Hf & Hc & Hn). split; [|done]. cbn [fetches setFetches].
  intros c' t [_ Hl]%lookup_delete_Some. by apply Hf.
Qed.

Lemma attempts_ok_newController p s :
  attempts_ok p s → attempts_ok p (newController s).
Proof.
  intros (Hf & Hc & Hn). split; [|split]; simpl; [|done|].
  - intros c t Hl. destruct (Hf c t Hl) as (? & ? & ? & ?).
    repeat split; [lia|done..].
  - intros c Hle. apply Hn. lia.
Qed.

Lemma calls_setFetches c v s : calls c (setFetches v s) = calls c s.
Proof. done. Qed.

(** A call made at attempt [a] by the callback of controller [c], which
    had made [a] calls before. *)
Lemma attempts_ok_attemptFetch p s c q key a :
  attempts_ok p s → c < nextController s → (0 ≤ a)%Z →
  Z.of_nat (calls c s) = a →
  attempts_ok p (attemptFetch p c q key a s).
Proof.
  intros Hok Hlt Ha Hcalls. unfold attemptFetch.
  destruct (Z.ltb_spec a (maxAttempts p)) as [Hlt'|_];
    [|by apply attempts_ok_delete].
  destruct Hok as (Hf & Hc & Hn). split; [|split].
  - cbn [fetches setFetches].
    intros c' t [[<- <-]|[Hne Hl]]%lookup_insert_Some.
    + rewrite calls_setFetches, calls_callFetchFn, decide_True by done.
      cbn [t_attempt t_phase nextController setFetches callFetchFn].
      repeat split; [done|done|lia|lia].
    + destruct (Hf c' t Hl) as (? & ? & ? & ?).
      rewrite calls_setFetches, calls_callFetchFn, decide_False by done.
      cbn [nextController setFetches callFetchFn].
      repeat split; [done|done|lia|done].
  - intros c'. rewrite calls_setFetches, calls_callFetchFn.
    case_decide as Heq; [subst c'; lia|]. specialize (Hc c'). lia.
  - cbn [nextController setFetches callFetchFn]. intros c' Hle.
    rewrite calls_setFetches, calls_callFetchFn, decide_False by lia.
    rewrite Hn by done. done.
Qed.

Lemma attempts_ok_backoff p s c t ms :
  attempts_ok p s → fetches s !! c = Some t → t_phase t = AwaitFetch →
  t_attempt t ≠ (maxAttempts p - 1)%Z →
  attempts_ok p
    (setFetches
       (<[c := {| t_q := t_q t; t_key := t_key t; t_attempt := t_attempt t;
                  t_phase := AwaitBackoff ms |}]> (fetches s)) s).
Proof.
  intros (Hf & Hc & Hn) Hl Hph Hne. split; [|done]. cbn [fetches setFetches].
  intros c' t' [[<- <-]|[_ Hl']]%lookup_insert_Some; [|by apply Hf].
  destruct (Hf c t Hl) as (? & ? & ? & Hlt). rewrite Hph in Hlt. simpl.
  repeat split; [done|done|done|lia].
Qed.

Lemma attempts_ok_handle p e s : attempts_ok p s → attempts_ok p (handle p e s).
Proof.
  intros Hok.
  destruct e as [| | | | | |id|c o|c|c o]; unfold handle;
    try (by apply (attempts_ok_ext p s)).
  - unfold handleSelection. case_match; [|done].
    apply (attempts_ok_ext p (newController s)); try done.
    by apply attempts_ok_newController.
  - destruct (timers s !! id) as [tm|]; [|done].
    unfold timerCallback. cbv zeta.
    apply attempts_ok_attemptFetch; simpl; [|lia|lia|].
    + apply (attempts_ok_ext p (newController s)); try done.
      by apply attempts_ok_newController.
    + destruct Hok as (_ & _ & Hn). unfold calls in *. simpl.
      by rewrite (Hn (nextController s)).
  - destruct (fetches s !! c) as [t|] eqn:Hl; [|done].
    destruct (t_phase t) eqn:Hph; [|done].
    unfold fetchContinuation. destruct o as [d|].
    + case_bool_decide; [by apply attempts_ok_delete|]. cbv zeta.
      match goal with |- attempts_ok p (setFetches (delete c (fetches ?s1)) ?s1) =>
        apply (attempts_ok_delete p s1), (attempts_ok_ext p s); done end.
    + case_bool_decide; [by apply attempts_ok_delete|].
      destruct (Z.eqb_spec (t_attempt t) (maxAttempts p - 1)) as [Heq|Hne].
      * cbv zeta.
        match goal with |- attempts_ok p (setFetches (delete c (fetches ?s1)) ?s1) =>
          apply (attempts_ok_delete p s1), (attempts_ok_ext p s); done end.
      * by apply attempts_ok_backoff.
  - destruct (fetches s !! c) as [t|] eqn:Hl; [|done].
    destruct (t_phase t) eqn:Hph; [done|].
    destruct Hok as (Hf & Hc & Hn).
    destruct (Hf c t Hl) as (? & ? & ? & ?).
    apply attempts_ok_attemptFetch; [done|done|lia|done].
  - case_bool_decide; [|done]. unfold selectionContinuation.
    apply (attempts_ok_ext p s); try done; by destruct o; case_match.
Qed.

Lemma attempts_ok_step p s e : attempts_ok p s → attempts_ok p (step p s e).
Proof.
  intros Hok. unfold step.
  apply (attempts_ok_ext p (handle p e s));
    [apply afterRender_fetches | apply afterRender_fetchLog
    | apply afterRender_nextController | by apply attempts_ok_handle].
Qed.

Lemma reachable_attempts_ok p s : reachable p s → attempts_ok p s.
Proof.
  apply (reachable_ind p (attempts_ok p)); [apply attempts_ok_init|].
  intros; by apply attempts_ok_step.
Qed.

(** *** The branches of the query effect *)

(** Cache hit: only [suggestions] and [noResults] are written; no timer
    is armed. *)
Lemma queryEffect_hit p s data :
  Str.isEmpty (Str.trim (query (view s))) = false →
  cache_get (Str.toLowerCase (Str.trim (query (view s)))) (cacheRef s) = Some data →
  view (queryEffect p s) = setNoResults (isNil data) (setSuggestions data (view s)) ∧
  nextTimer (queryEffect p s) = nextTimer s ∧
  timers (queryEffect p s) ⊆ timers s.
Proof.
  intros Hq Hget. unfold_effect.
  destruct s as [w [dr|] [ar|] cr [] tms nt ab nc fs sels fl sl]; simpl in *;
    rewrite Hq, Hget; simpl; repeat split; try done;
    repeat (etrans; [apply delete_subseteq|]); done.
Qed.

(** Empty trimmed query: the view is not written; no timer is armed. *)
Lemma queryEffect_empty p s :
  Str.isEmpty (Str.trim (query (view s))) = true →
  view (queryEffect p s) = view s ∧
  nextTimer (queryEffect p s) = nextTimer s ∧
  timers (queryEffect p s) ⊆ timers s.
Proof.
  intros Hq. unfold_effect.
  destruct s as [w [dr|] [ar|] cr [] tms nt ab nc fs sels fl sl]; simpl in *;
    rewrite Hq; simpl; repeat split; try done;
    repeat (etrans; [apply delete_subseteq|]); done.
Qed.

(** Cache miss: one timer is armed with [debounceMs], holding the
    trimmed query and its key. *)
Lemma queryEffect_miss p s :
  Str.isEmpty (Str.trim (query (view s))) = false →
  cache_get (Str.toLowerCase (Str.trim (query (view s)))) (cacheRef s) = None →
  view (queryEffect p s) = view s ∧
  debounceRef (queryEffect p s) = Some (nextTimer s) ∧
  timers (queryEffect p s) !! nextTimer s =
    Some {| tm_delay := debounceMs (destructure p);
            tm_q := Str.trim (query (view s));
            tm_key := Str.toLowerCase (Str.trim (query (view s))) |}.
Proof.
  intros Hq Hget. unfold_effect.
  destruct s as [w [dr|] [ar|] cr [] tms nt ab nc fs sels fl sl]; simpl in *;
    rewrite Hq, Hget; simpl; repeat split; try done;
    by rewrite lookup_insert_eq.
Qed.

Lemma highlightEffect_frame w :
  let w' := highlightEffect w in
  input w' = input w ∧ query w' = query w ∧ suggestions w' = suggestions w ∧
  loading w' = loading w ∧ error w' = error w ∧ noResults w' = noResults w.
Proof. unfold highlightEffect. by case_match. Qed.

Lemma highlightEffect_unset w : highlight w = (-1)%Z → highlightEffect w = w.
Proof.
  intros H. unfold highlightEffect. rewrite H.
  destruct (Z.geb_spec (-1) (Z.of_nat (length (suggestions w)))); [lia|done].
Qed.

Lemma onView_settled s : settled s → onView highlightEffect s = s.
Proof.
  unfold settled, onView. intros H. destruct s. cbn [view] in *. by rewrite H.
Qed.

(** An event that leaves [query] alone is followed by the highlight
    effect only. *)
Lemma step_same_query p s e :
  query (view (handle p e s)) = query (view s) →
  step p s e = onView highlightEffect (handle p e s).
Proof.
  intros Hq. unfold step, afterRender. by rewrite bool_decide_true.
Qed.

Lemma step_changed_query p s e :
  query (view (handle p e s)) ≠ query (view s) →
  step p s e = onView highlightEffect (queryEffect p (handle p e s)).
Proof.
  intros Hq. unfold step, afterRender. by rewrite bool_decide_false.
Qed.

End HookFacts.

(** * The specification's claims *)

(** ** Highlight navigation *)

(** C6: [moveHighlight delta] yields -1 on an empty list.  On a list of
    length [n > 0], for every highlight and every integer [delta], with
    [t = highlight + delta]: a step below 0 wraps to [n - 1], a step to
    [n] or above wraps to 0, and a step inside the list lands on [t]; the
    result is always an index of the list.  Whenever [-1 <= t <= n],
    which covers single steps from an index inside the list, the result
    is [t mod n].  With three suggestions, -1 moved by -1 gives 2 and 2
    moved by 1 gives 0. *)
Theorem moveHighlight_wraps_to_ends {T} (w : View T) (delta : Z) :
  let n := Z.of_nat (length (suggestions w)) in
  let t := (highlight w + delta)%Z in
  let r := highlight (moveHighlight delta w) in
  (n = 0%Z → r = (-1)%Z) ∧
  ((0 < n)%Z → (t < 0)%Z → r = (n - 1)%Z) ∧
  ((0 < n)%Z → (n ≤ t)%Z → r = 0%Z) ∧
  ((0 < n)%Z → (0 ≤ t < n)%Z → r = t) ∧
  ((0 < n)%Z → (0 ≤ r < n)%Z) ∧
  ((0 < n)%Z → (-1 ≤ t ≤ n)%Z → r = (t `mod` n)%Z) ∧
  (n = 3%Z → highlight w = (-1)%Z → delta = (-1)%Z → r = 2%Z) ∧
  (n = 3%Z → highlight w = 2%Z → delta = 1%Z → r = 0%Z).
Proof.
  intros n t r. subst r. unfold moveHighlight, nextHighlight. simpl.
  fold n. fold t.
  destruct (Z.eqb_spec n 0) as [Hn|Hn];
    destruct (Z.ltb_spec t 0) as [Ht|Ht]; simpl;
    repeat split; intros; try lia;
    repeat match goal with
    | |- context [(?a >=? ?b)%Z] => destruct (Z.geb_spec a b)
    end; try lia.
  - assert (t = (-1)%Z) as Heq by lia. rewrite Heq.
    rewrite <- (Z_mod_plus_full (-1) 1 n), Z.mod_small; lia.
  - assert (t = n) as Heq by lia. rewrite Heq. by rewrite Z_mod_same_full.
  - symmetry. apply Z.mod_small. lia.
Qed.

Lemma moveHighlight_wraps_to_ends_witness :
  highlight (moveHighlight (-1)
    {| input := "a"; query := "a"; suggestions := ["x"; "y"; "z"];
       loading := false; error := None; highlight := (-1)%Z;
       noResults := false |}) = 2%Z.
Proof.
  pose proof (moveHighlight_wraps_to_ends
    {| input := "a"; query := "a"; suggestions := ["x"; "y"; "z"];
       loading := false; error := None; highlight := (-1)%Z;
       noResults := false |} (-1)%Z) as H.
  simpl in H. destruct H as (_ & _ & _ & _ & _ & _ & H & _).
  apply H; reflexivity.
Defined.

(** ** Configuration *)

(** C8, as the specification states it, fails: no parameter record
    changes the retry policy, so [maxAttempts] and [backoffBaseMs] are
    not settable by the caller. *)
Lemma retry_policy_not_settable :
  ¬ (∃ p : UseAutocompleteParams,
       maxAttempts p ≠ RETRY_ATTEMPTS DEFAULT_CONFIG ∨
       backoffBase p ≠ BACKOFF_BASE_MS DEFAULT_CONFIG).
Proof. intros [p [H|H]]; by apply H. Qed.

(** C8, amended: the options the hook reads from its caller are
    [selectionFn], [debounceMs], [minChars] and [maxCache], with defaults
    300, 1 and 50 for the last three; two parameter records that agree on
    them drive the same state machine.  The retry policy of the primary
    fetch is fixed at the constants RETRY_ATTEMPTS = 2 and
    BACKOFF_BASE_MS = 150. *)
Theorem configuration_surface {T} (p p' : UseAutocompleteParams) :
  debounceMs (destructure p) = default 300%Z (p_debounceMs p) ∧
  minChars (destructure p) = default 1%Z (p_minChars p) ∧
  maxCache (destructure p) = default 50%Z (p_maxCache p) ∧
  maxAttempts p = 2%Z ∧ backoffBase p = 150%Z ∧
  (destructure p = destructure p' →
   ∀ (s : State T) (e : Event T), step p s e = step p' s e).
Proof.
  repeat split. intros H s e.
  unfold step, afterRender, queryEffect, handle, updateInput, handleSelection,
    timerCallback, fetchContinuation, attemptFetch, maxAttempts, backoffBase.
  rewrite H. reflexivity.
Qed.

Lemma configuration_surface_witness :
  step (T := string)
    {| p_selectionFn := false; p_debounceMs := None; p_minChars := None;
       p_maxCache := None |} init (UpdateInput "a") =
  step
    {| p_selectionFn := false; p_debounceMs := Some 300%Z;
       p_minChars := Some 1%Z; p_maxCache := Some 50%Z |} init (UpdateInput "a").
Proof.
  apply (configuration_surface (T := string)
    {| p_selectionFn := false; p_debounceMs := None; p_minChars := None;
       p_maxCache := None |}
    {| p_selectionFn := false; p_debounceMs := Some 300%Z;
       p_minChars := Some 1%Z; p_maxCache := Some 50%Z |}).
  reflexivity.
Defined.

(** ** Input that trims to nothing *)

(** C10: for an input of length at least [minChars] whose trimmed form
    is empty, [updateInput] sets [input] and [query] to the raw string
    and resets the highlight; no timer is armed and no fetch is started,
    and [suggestions], [noResults], [error] and [loading] keep their
    values. *)
Theorem blank_input_keeps_suggestions {T} (p : UseAutocompleteParams)
    (s : State T) (val : string) :
  (minChars (destructure p) ≤ Z.of_nat (String.length val))%Z →
  Str.trim val = EmptyString →
  let s' := step p s (UpdateInput val) in
  input (view s') = val ∧ query (view s') = val ∧
  highlight (view s') = (-1)%Z ∧
  suggestions (view s') = suggestions (view s) ∧
  noResults (view s') = noResults (view s) ∧
  error (view s') = error (view s) ∧
  loading (view s') = loading (view s) ∧
  fetchLog s' = fetchLog s ∧ fetches s' = fetches s ∧
  nextTimer s' = nextTimer s ∧ timers s' ⊆ timers s.
Proof.
  intros Hlen Htrim s'. subst s'.
  assert (view (handle p (UpdateInput val) s)
          = setQuery val (setHighlight (-1) (setInput val (view s)))) as Hv.
  { simpl. unfold updateInput.
    destruct (Z.geb_spec (Z.of_nat (String.length val)) (minChars (destructure p)));
      [done|lia]. }
  unfold step. rewrite afterRender_fetchLog, afterRender_fetches.
  assert (fetchLog (handle p (UpdateInput val) s) = fetchLog s) as -> by done.
  assert (fetches (handle p (UpdateInput val) s) = fetches s) as -> by done.
  assert (nextTimer (handle p (UpdateInput val) s) = nextTimer s) as Hnt0 by done.
  assert (timers (handle p (UpdateInput val) s) = timers s) as Htm0 by done.
  revert Hv Hnt0 Htm0. generalize (handle p (UpdateInput val) s) as h.
  intros h Hv Hnt0 Htm0. unfold afterRender. case_bool_decide as Hq.
  - cbn [view onView nextTimer timers].
    rewrite Hv, highlightEffect_unset, Hnt0, Htm0 by done. by repeat split.
  - destruct (queryEffect_empty p h) as (Hview & Hnt & Htm).
    { rewrite Hv. simpl. by rewrite Htrim. }
    cbn [view onView nextTimer timers].
    rewrite Hview, Hv, highlightEffect_unset, Hnt, Hnt0, <- Htm0 by done.
    by repeat split.
Qed.

Lemma blank_input_keeps_suggestions_witness :
  suggestions (view (step (T := string)
    {| p_selectionFn := false; p_debounceMs := None; p_minChars := None;
       p_maxCache := None |}
    (onView (setSuggestions ["apple"]) init) (UpdateInput "  "))) = ["apple"].
Proof.
  pose proof (blank_input_keeps_suggestions (T := string)
    {| p_selectionFn := false; p_debounceMs := None; p_minChars := None;
       p_maxCache := None |}
    (onView (setSuggestions ["apple"]) init) "  "
    ltac:(simpl; lia) ltac:(reflexivity)) as H.
  simpl in H. apply H.
Defined.

(** ** Cache hits *)

(** A query that is in the cache, typed into a reachable state. *)
Lemma step_cache_hit {T} (p : UseAutocompleteParams) (s : State T)
    (val : string) (data : list T) :
  reachable p s →
  cache_get (Str.toLowerCase (Str.trim val)) (cacheRef s) = Some data →
  (minChars (destructure p) ≤ Z.of_nat (String.length val))%Z →
  val ≠ query (view s) →
  let s' := step p s (UpdateInput val) in
  view s' =
    setNoResults (isNil data) (setSuggestions data
      (setQuery val (setHighlight (-1) (setInput val (view s))))) ∧
  fetchLog s' = fetchLog s ∧ fetches s' = fetches s ∧
  nextTimer s' = nextTimer s ∧ timers s' ⊆ timers s.
Proof.
  intros Hreach Hget Hlen Hne s'. subst s'.
  assert (Str.isEmpty (Str.trim val) = false) as Hq.
  { apply isEmpty_false_iff. intros Hempty.
    destruct (reachable_keys_ok p s Hreach) as (Hkeys & _).
    apply (Hkeys (Str.toLowerCase (Str.trim val))).
    - by apply cache_get_Some_in in Hget.
    - by rewrite Hempty. }
  assert (view (handle p (UpdateInput val) s)
          = setQuery val (setHighlight (-1) (setInput val (view s)))) as Hv.
  { simpl. unfold updateInput.
    destruct (Z.geb_spec (Z.of_nat (String.length val)) (minChars (destructure p)));
      [done|lia]. }
  unfold step. rewrite afterRender_fetchLog, afterRender_fetches.
  assert (fetchLog (handle p (UpdateInput val) s) = fetchLog s) as -> by done.
  assert (fetches (handle p (UpdateInput val) s) = fetches s) as -> by done.
  assert (nextTimer (handle p (UpdateInput val) s) = nextTimer s) as Hnt0 by done.
  assert (timers (handle p (UpdateInput val) s) = timers s) as Htm0 by done.
  assert (cacheRef (handle p (UpdateInput val) s) = cacheRef s) as Hc0 by done.
  revert Hv Hnt0 Htm0 Hc0. generalize (handle p (UpdateInput val) s) as h.
  intros h Hv Hnt0 Htm0 Hc0. unfold afterRender.
  rewrite bool_decide_false by (rewrite Hv; simpl; done).
  destruct (queryEffect_hit p h data) as (Hview & Hnt & Htm).
  { by rewrite Hv. }
  { by rewrite Hv, Hc0. }
  cbn [view onView nextTimer timers].
  rewrite Hview, Hv, highlightEffect_unset, Hnt, Hnt0, <- Htm0 by done.
  by repeat split.
Qed.

(** C3: when the trimmed, lower-cased form of the query typed is a key of
    the cache, processing it sets [suggestions] to the cached list and
    [noResults] to its emptiness within the same step; [fetchFn] is not
    called, no timer is armed and [loading] keeps its value.  A second
    query with the same trimmed, lower-cased form gets the same list. *)
Theorem cache_hit_is_synchronous {T} (p : UseAutocompleteParams) (s : State T)
    (val val' : string) (data : list T) :
  reachable p s →
  cache_get (Str.toLowerCase (Str.trim val)) (cacheRef s) = Some data →
  (minChars (destructure p) ≤ Z.of_nat (String.length val))%Z →
  val ≠ query (view s) →
  Str.toLowerCase (Str.trim val') = Str.toLowerCase (Str.trim val) →
  (minChars (destructure p) ≤ Z.of_nat (String.length val'))%Z →
  val' ≠ query (view s) →
  let s1 := step p s (UpdateInput val) in
  let s2 := step p s (UpdateInput val') in
  suggestions (view s1) = data ∧ noResults (view s1) = isNil data ∧
  loading (view s1) = loading (view s) ∧
  fetchLog s1 = fetchLog s ∧ fetches s1 = fetches s ∧
  nextTimer s1 = nextTimer s ∧ timers s1 ⊆ timers s ∧
  suggestions (view s2) = data ∧ noResults (view s2) = isNil data ∧
  fetchLog s2 = fetchLog s ∧ nextTimer s2 = nextTimer s.
Proof.
  intros Hreach Hget Hlen Hne Hkey Hlen' Hne' s1 s2.
  destruct (step_cache_hit p s val data Hreach Hget Hlen Hne)
    as (Hv1 & Hl1 & Hf1 & Hn1 & Ht1).
  rewrite <- Hkey in Hget.
  destruct (step_cache_hit p s val' data Hreach Hget Hlen' Hne')
    as (Hv2 & Hl2 & Hf2 & Hn2 & Ht2).
  subst s1 s2. rewrite Hv1, Hv2. by repeat split.
Qed.


Lemma cache_hit_is_synchronous_witness :
  suggestions (view (step hit_params (run hit_params init hit_trace)
                       (UpdateInput " AP"))) = ["apple"; "apricot"] ∧
  suggestions (view (step hit_params (run hit_params init hit_trace)
                       (UpdateInput "Ap "))) = ["apple"; "apricot"].
Proof.
  pose proof (cache_hit_is_synchronous hit_params (run hit_params init hit_trace)
    " AP" "Ap " ["apple"; "apricot"]
    ltac:(by exists hit_trace) ltac:(reflexivity)
    ltac:(vm_compute; discriminate) ltac:(vm_compute; discriminate)
    ltac:(reflexivity)
    ltac:(vm_compute; discriminate) ltac:(vm_compute; discriminate)) as H.
  cbv zeta in H. destruct H as (H1 & _ & _ & _ & _ & _ & _ & H2 & _).
  split; [exact H1 | exact H2].
Defined.

(** C9: on a cache hit the query effect writes [suggestions] and
    [noResults] and nothing else of the view; an [error] set earlier and
    a [loading] flag left true by a superseded fetch stay.  Both happen:
    after a failed fetch for "b", and during a fetch for "b", typing the
    cached "a" shows its suggestions next to the old error, respectively
    next to [loading = true]. *)
Theorem cache_hit_keeps_error_and_loading {T} (p : UseAutocompleteParams)
    (s : State T) (data : list T) :
  Str.isEmpty (Str.trim (query (view s))) = false →
  cache_get (Str.toLowerCase (Str.trim (query (view s)))) (cacheRef s) = Some data →
  let s' := queryEffect p s in
  view s' = setNoResults (isNil data) (setSuggestions data (view s)) ∧
  error (view s') = error (view s) ∧ loading (view s') = loading (view s) ∧
  input (view s') = input (view s) ∧ query (view s') = query (view s) ∧
  highlight (view s') = highlight (view s) ∧
  view (run hit_params init
          [UpdateInput "a"; TimerFire 1;
           FetchSettled 0 (Resolved (IsArray ["apple"]));
           UpdateInput "b"; TimerFire 2; FetchSettled 1 Rejected;
           BackoffElapsed 1; FetchSettled 1 Rejected; UpdateInput "a"])
    = {| input := "a"; query := "a"; suggestions := ["apple"];
         loading := false; error := Some "Failed to fetch";
         highlight := (-1)%Z; noResults := false |} ∧
  view (run hit_params init
          [UpdateInput "a"; TimerFire 1;
           FetchSettled 0 (Resolved (IsArray ["apple"]));
           UpdateInput "b"; TimerFire 2; UpdateInput "a"])
    = {| input := "a"; query := "a"; suggestions := ["apple"];
         loading := true; error := None;
         highlight := (-1)%Z; noResults := false |}.
Proof.
  intros Hq Hget s'. subst s'.
  destruct (queryEffect_hit p s data Hq Hget) as (Hv & _ & _).
  rewrite Hv. repeat split; vm_compute; reflexivity.
Qed.

Lemma cache_hit_keeps_error_and_loading_witness :
  error (view (queryEffect hit_params
    (onView (setQuery "a") (onView (setError (Some "Failed to fetch"))
       (setCacheRef [("a", ["apple"])] init)))))
  = Some "Failed to fetch".
Proof.
  pose proof (cache_hit_keeps_error_and_loading hit_params
    (onView (setQuery "a") (onView (setError (Some "Failed to fetch"))
       (setCacheRef [("a", ["apple"])] init)))
    ["apple"] ltac:(reflexivity) ltac:(reflexivity)) as H.
  cbv zeta in H. destruct H as (_ & H & _). rewrite H. reflexivity.
Defined.

(** ** The retry loop *)

(** C5: under every controller at most [maxAttempts] calls of [fetchFn]
    are made.  When the call of attempt [i] fails and the controller is
    not aborted: for [i < maxAttempts - 1] the callback waits
    [backoffBase * (i + 1)], nothing of the view changes, and only when
    that wait is over it makes the next call; for [i = maxAttempts - 1]
    it sets [error] to "Failed to fetch", empties [suggestions], clears
    [loading] and ends. *)
Theorem retry_loop_bounded_linear_backoff {T} (p : UseAutocompleteParams)
    (s : State T) :
  reachable p s →
  (∀ c, (Z.of_nat (calls c s) ≤ maxAttempts p)%Z) ∧
  (∀ c t,
     fetches s !! c = Some t → t_phase t = AwaitFetch → c ∉ aborted s →
     let s1 := step p s (FetchSettled c Rejected) in
     let s2 := step p s1 (BackoffElapsed c) in
     ((t_attempt t < maxAttempts p - 1)%Z →
        fetches s1 !! c =
          Some {| t_q := t_q t; t_key := t_key t; t_attempt := t_attempt t;
                  t_phase := AwaitBackoff (backoffBase p * (t_attempt t + 1)) |} ∧
        fetchLog s1 = fetchLog s ∧ view s1 = view s ∧
        fetches s2 !! c =
          Some {| t_q := t_q t; t_key := t_key t;
                  t_attempt := (t_attempt t + 1)%Z; t_phase := AwaitFetch |} ∧
        fetchLog s2 = fetchLog s ++ [(c, t_q t)]) ∧
     (t_attempt t = (maxAttempts p - 1)%Z →
        error (view s1) = Some "Failed to fetch" ∧
        suggestions (view s1) = [] ∧ loading (view s1) = false ∧
        fetches s1 !! c = None ∧ fetchLog s1 = fetchLog s)).
Proof.
  intros Hreach. split.
  { by destruct (reachable_attempts_ok p s Hreach) as (_ & Hc & _). }
  intros c t Hl Hph Hab s1 s2.
  assert (handle p (FetchSettled c Rejected) s =
          fetchContinuation p c t Rejected s) as Hh.
  { unfold handle. by rewrite Hl, Hph. }
  split.
  - intros Hlt.
    assert (handle p (FetchSettled c Rejected) s = setFetches
      (<[c := {| t_q := t_q t; t_key := t_key t; t_attempt := t_attempt t;
                 t_phase := AwaitBackoff (backoffBase p * (t_attempt t + 1)) |}]>
         (fetches s)) s) as Hh1.
    { rewrite Hh. unfold fetchContinuation. rewrite bool_decide_false by done.
      destruct (Z.eqb_spec (t_attempt t) (maxAttempts p - 1)); [lia|done]. }
    assert (s1 = handle p (FetchSettled c Rejected) s) as Hs1.
    { subst s1. rewrite step_same_query by (by rewrite Hh1).
      apply onView_settled. rewrite Hh1. apply (reachable_settled p s Hreach). }
    assert (handle p (BackoffElapsed c) s1 =
            attemptFetch p c (t_q t) (t_key t) (t_attempt t + 1) s1) as Hh2.
    { unfold handle. rewrite Hs1, Hh1. cbn [fetches setFetches].
      by rewrite lookup_insert_eq. }
    assert (s2 = handle p (BackoffElapsed c) s1) as Hs2.
    { subst s2. rewrite step_same_query.
      - apply onView_settled. rewrite Hh2. unfold settled, attemptFetch.
        case_match; cbn [view setFetches callFetchFn]; rewrite Hs1, Hh1;
          apply (reachable_settled p s Hreach).
      - rewrite Hh2. unfold attemptFetch. by case_match. }
    rewrite Hs2, Hh2. unfold attemptFetch.
    destruct (Z.ltb_spec (t_attempt t + 1) (maxAttempts p)); [|lia].
    rewrite Hs1, Hh1. cbn [fetches setFetches callFetchFn fetchLog view].
    by rewrite !lookup_insert_eq.
  - intros Heq.
    assert (handle p (FetchSettled c Rejected) s =
      setFetches (delete c (fetches s))
        (onView (setLoading false) (onView (setSuggestions [])
           (onView (setError (Some "Failed to fetch")) s)))) as Hh1.
    { rewrite Hh. unfold fetchContinuation. rewrite bool_decide_false by done.
      destruct (Z.eqb_spec (t_attempt t) (maxAttempts p - 1)); [done|lia]. }
    subst s1. rewrite step_same_query by (by rewrite Hh1). rewrite Hh1.
    cbn [view onView setFetches fetches fetchLog].
    destruct (highlightEffect_frame
      (setLoading false (setSuggestions [] (setError (Some "Failed to fetch") (view s)))))
      as (_ & _ & -> & -> & -> & _).
    by rewrite lookup_delete_eq.
Qed.

Lemma retry_loop_bounded_linear_backoff_witness :
  fetches (step hit_params
             (run (T := string) hit_params init [UpdateInput "a"; TimerFire 1])
             (FetchSettled 0 Rejected)) !! 0 =
    Some {| t_q := "a"; t_key := "a"; t_attempt := 0;
            t_phase := AwaitBackoff 150 |}.
Proof.
  pose proof (retry_loop_bounded_linear_backoff hit_params
    (run (T := string) hit_params init [UpdateInput "a"; TimerFire 1])
    ltac:(by exists [UpdateInput "a"; TimerFire 1])) as [_ H].
  specialize (H 0 {| t_q := "a"; t_key := "a"; t_attempt := 0;
                     t_phase := AwaitFetch |}
    ltac:(vm_compute; reflexivity) ltac:(reflexivity)
    ltac:(apply (bool_decide_unpack _); vm_compute; exact I)).
  cbv zeta in H. destruct H as [H _].
  destruct (H ltac:(vm_compute; reflexivity)) as (H1 & _).
  exact H1.
Defined.

(** ** Selection *)



(** ** Supersession of requests *)

(** C1, evaluated where the code departs from it: a debounced fetch for
    "a" is in flight under controller 0 when [handleSelection] starts a
    selection fetch under controller 1.  Controller 0 is not aborted, so
    two requests are live; when the fetch for "a" resolves afterwards it
    writes [suggestions], [loading] and the cache. *)
Theorem handleSelection_leaves_prior_fetch_live :
  let s := run sel_params init
             [UpdateInput "a"; TimerFire 1; HandleSelection "x"] in
  let s' := step sel_params s (FetchSettled 0 (Resolved (IsArray ["apple"]))) in
  map_to_list (fetches s) =
    [(0, {| t_q := "a"; t_key := "a"; t_attempt := 0; t_phase := AwaitFetch |})] ∧
  elements (selections s) = [1] ∧ elements (aborted s) = [] ∧
  abortRef s = Some 1 ∧
  view s = {| input := "a"; query := "a"; suggestions := []; loading := true;
              error := None; highlight := (-1)%Z; noResults := false |} ∧
  cacheRef s = [] ∧
  view s' = {| input := "a"; query := "a"; suggestions := ["apple"];
               loading := false; error := None; highlight := (-1)%Z;
               noResults := false |} ∧
  cacheRef s' = [("a", ["apple"])].
Proof. vm_compute. repeat split; reflexivity. Qed.

(** C2, evaluated where the code departs from it: the fetch for "app" is
    in flight when a suggestion is chosen ([handleSelection "apple"]) and
    the input switches the query to "apple".  The switch aborts the
    controller of the selection, not the controller of the fetch for
    "app"; when that fetch resolves it overwrites the state shown for
    "apple". *)
Theorem superseded_fetch_overwrites_after_selection :
  let s := run sel_params init
             [UpdateInput "app"; TimerFire 1; HandleSelection "apple";
              UpdateInput "apple"] in
  let s' := step sel_params s
              (FetchSettled 0 (Resolved (IsArray ["application"]))) in
  elements (aborted s) = [1] ∧
  view s = {| input := "apple"; query := "apple"; suggestions := [];
              loading := true; error := None; highlight := (-1)%Z;
              noResults := false |} ∧
  view s' = {| input := "apple"; query := "apple";
               suggestions := ["application"]; loading := false;
               error := None; highlight := (-1)%Z; noResults := false |} ∧
  cacheRef s' = [("app", ["application"])].
Proof. vm_compute. repeat split; reflexivity. Qed.

(** * Further properties of the hook *)

Section MoreHookFacts.
Context {T : Type}.
Implicit Types (s : State T) (w : View T) (p : UseAutocompleteParams)
  (e : Event T) (o : Outcome T) (c : nat).

(** *** The highlight stays inside the list *)

Lemma nextHighlight_lower (n prev delta : Z) :
  (0 ≤ n)%Z → (-1 ≤ nextHighlight n prev delta)%Z.
Proof.
  intros Hn. unfold nextHighlight.
  destruct (Z.eqb_spec n 0); [lia|].
  destruct (Z.ltb_spec (prev + delta) 0);
    repeat match goal with
    | |- context [(?a >=? ?b)%Z] => destruct (Z.geb_spec a b)
    end; lia.
Qed.

Lemma handle_highlight_lower p e s :
  (-1 ≤ highlight (view s))%Z → (-1 ≤ highlight (view (handle p e s)))%Z.
Proof.
  intros H.
  destruct e as [val| |delta|idx|l|value|id|c o|c|c o]; unfold handle.
  - simpl. unfold updateInput. by case_match.
  - done.
  - simpl. apply nextHighlight_lower. lia.
  - simpl. unfold setHighlightIndex.
    destruct (Z.ltb_spec idx (-1)); simpl; [done|]. case_match; simpl; [done|lia].
  - done.
  - unfold handleSelection. by case_match.
  - destruct (timers s !! id); [|done].
    unfold timerCallback, attemptFetch. by case_match.
  - destruct (fetches s !! c) as [t|]; [|done]. destruct (t_phase t); [|done].
    unfold fetchContinuation. destruct o; repeat case_match; done.
  - destruct (fetches s !! c) as [t|]; [|done]. destruct (t_phase t); [done|].
    unfold attemptFetch. by case_match.
  - case_bool_decide; [|done]. unfold selectionContinuation.
    destruct o; case_match; done.
Qed.

Lemma highlightEffect_range w :
  (-1 ≤ highlight w)%Z →
  (-1 ≤ highlight (highlightEffect w)
      < Z.of_nat (length (suggestions (highlightEffect w))))%Z.
Proof.
  intros H. unfold highlightEffect.
  destruct (Z.geb_spec (highlight w) (Z.of_nat (length (suggestions w))));
    simpl; lia.
Qed.

Lemma reachable_highlight_lower p s :
  reachable p s → (-1 ≤ highlight (view s))%Z.
Proof.
  apply (reachable_ind p (λ s, (-1 ≤ highlight (view s))%Z)); [done|].
  intros s0 e _ IH. unfold step, afterRender. cbn [view onView].
  assert (-1 ≤ highlight (view (handle p e s0)))%Z as Hh
    by by apply handle_highlight_lower.
  case_bool_decide.
  - by apply highlightEffect_range.
  - apply highlightEffect_range.
    by destruct (queryEffect_view_frame p (handle p e s0)) as (_ & _ & _ & _ & ->).
Qed.

Lemma reachable_highlight_range p s :
  reachable p s →
  (-1 ≤ highlight (view s) < Z.of_nat (length (suggestions (view s))))%Z.
Proof.
  intros Hr. pose proof (reachable_highlight_lower p s Hr) as Hlow.
  pose proof (reachable_settled p s Hr) as Hs. unfold settled in Hs.
  rewrite <- Hs. by apply highlightEffect_range.
Qed.

End MoreHookFacts.

(** X1: in every state the hook can reach, the highlight is at least -1
    and smaller than the number of suggestions: it is -1 or points at an
    item of the list shown. *)
Theorem highlight_always_in_range {T} (p : UseAutocompleteParams) (s : State T) :
  reachable p s →
  (-1 ≤ highlight (view s) < Z.of_nat (length (suggestions (view s))))%Z.
Proof. apply reachable_highlight_range. Qed.

Section MoreInvariants.
Context {T : Type}.
Implicit Types (s : State T) (w : View T) (p : UseAutocompleteParams)
  (e : Event T) (o : Outcome T) (c : nat).

(** *** [loading] and [error] *)

Lemma handle_loading_error p e s :
  (loading (view s) = true → error (view s) = None) →
  loading (view (handle p e s)) = true → error (view (handle p e s)) = None.
Proof.
  intros H.
  destruct e as [val| |delta|idx|l|value|id|c o|c|c o]; unfold handle.
  - simpl. unfold updateInput. by case_match.
  - done.
  - done.
  - simpl. unfold setHighlightIndex. by case_match.
  - done.
  - unfold handleSelection. by case_match.
  - destruct (timers s !! id); [|done].
    unfold timerCallback, attemptFetch. by case_match.
  - destruct (fetches s !! c) as [t|]; [|done]. destruct (t_phase t); [|done].
    unfold fetchContinuation. destruct o; repeat case_match; done.
  - destruct (fetches s !! c) as [t|]; [|done]. destruct (t_phase t); [done|].
    unfold attemptFetch. by case_match.
  - case_bool_decide; [|done]. unfold selectionContinuation.
    destruct o; case_match; done.
Qed.

Lemma step_loading_error p s e :
  (loading (view s) = true → error (view s) = None) →
  loading (view (step p s e)) = true → error (view (step p s e)) = None.
Proof.
  intros H. pose proof (handle_loading_error p e s H) as Hh.
  unfold step, afterRender. cbn [view onView].
  case_bool_decide.
  - by destruct (highlightEffect_frame (view (handle p e s)))
      as (_ & _ & _ & -> & -> & _).
  - destruct (highlightEffect_frame (view (queryEffect p (handle p e s))))
      as (_ & _ & _ & -> & -> & _).
    by destruct (queryEffect_view_frame p (handle p e s))
      as (_ & _ & -> & -> & _).
Qed.

(** *** Timers *)

Lemma timers_ok_init : timers_ok (@init T).
Proof. split; simpl; [intros ?? H; by rewrite lookup_empty in H | done]. Qed.

Lemma timers_ok_onView f s : timers_ok s → timers_ok (onView f s).
Proof. done. Qed.

Lemma timers_ok_queryEffect p s : timers_ok s → timers_ok (queryEffect p s).
Proof.
  intros (Ht & Hd).
  unfold queryEffect, runCleanup, clearDebounce, abortCurrent.
  destruct s as [w [dr|] [ar|] cr [] tms nt ab nc fs sels fl sl]; simpl in *;
    (destruct (Str.isEmpty _); simpl; [|destruct (cache_get _ _); simpl]);
    (split; simpl; [intros id tm Hl | intros id Hid]);
    repeat match goal with
    | H : <[_:=_]> _ !! _ = Some _ |- _ =>
        apply lookup_insert_Some in H as [[<- _]|[_ H]]
    | H : delete _ _ !! _ = Some _ |- _ =>
        apply lookup_delete_Some in H as [? H]
    end;
    try done; try (simplify_eq; lia); try (by apply Hd);
    try (specialize (Ht _ _ Hl); congruence).
Qed.

Lemma timers_ok_handle p e s : timers_ok s → timers_ok (handle p e s).
Proof.
  intros (Ht & Hd).
  destruct e as [val| |delta|idx|l|value|id|c o|c|c o]; unfold handle; try done.
  - unfold handleSelection. by case_match.
  - destruct (timers s !! id) as [tm|] eqn:Htm; [|done].
    unfold timerCallback, attemptFetch.
    case_match; (split; simpl; [|done]);
      intros id' tm' [_ Hl]%lookup_delete_Some; by apply (Ht _ tm').
  - destruct (fetches s !! c) as [t|]; [|done]. destruct (t_phase t); [|done].
    unfold fetchContinuation. destruct o; repeat case_match; done.
  - destruct (fetches s !! c) as [t|]; [|done]. destruct (t_phase t); [done|].
    unfold attemptFetch. by case_match.
  - case_bool_decide; [|done]. unfold selectionContinuation.
    destruct o; case_match; done.
Qed.

Lemma timers_ok_step p s e : timers_ok s → timers_ok (step p s e).
Proof.
  intros H. unfold step, afterRender. apply timers_ok_onView.
  case_bool_decide; [|apply timers_ok_queryEffect]; by apply timers_ok_handle.
Qed.

Lemma reachable_timers_ok p s : reachable p s → timers_ok s.
Proof.
  apply (reachable_ind p timers_ok); [apply timers_ok_init|].
  intros; by apply timers_ok_step.
Qed.

(** *** Controllers *)

Lemma controllers_ok_init : controllers_ok (@init T).
Proof. split; [|split]; simpl; [set_solver|done|set_solver]. Qed.

Lemma controllers_ok_queryEffect p s :
  controllers_ok s → controllers_ok (queryEffect p s).
Proof.
  intros (Ha & Hr & Hs).
  unfold queryEffect, runCleanup, clearDebounce, abortCurrent.
  destruct s as [w [dr|] [ar|] cr [] tms nt ab nc fs sels fl sl]; simpl in *;
    (destruct (Str.isEmpty _); simpl; [|destruct (cache_get _ _); simpl]);
    (split; [|split]); simpl; try done;
    intros c Hc; repeat (apply elem_of_union in Hc as [Hc|Hc]);
    try (apply elem_of_singleton in Hc as ->); auto.
Qed.

Lemma controllers_ok_newController s :
  controllers_ok s → controllers_ok (newController s).
Proof.
  intros (Ha & Hr & Hs). split; [|split]; simpl.
  - intros c Hc. specialize (Ha c Hc). lia.
  - intros c [= <-]. lia.
  - intros c Hc. specialize (Hs c Hc). lia.
Qed.

Lemma controllers_ok_ext s s' :
  aborted s' = aborted s → abortRef s' = abortRef s →
  selections s' ⊆ selections s → nextController s' = nextController s →
  controllers_ok s → controllers_ok s'.
Proof.
  intros Ha Hr Hsub Hn (H1 & H2 & H3). unfold controllers_ok.
  rewrite Ha, Hr, Hn. repeat split; auto.
Qed.

Lemma controllers_ok_handle p e s : controllers_ok s → controllers_ok (handle p e s).
Proof.
  intros Hok.
  destruct e as [val| |delta|idx|l|value|id|c o|c|c o]; unfold handle; try done.
  - unfold handleSelection. case_match; [|done].
    destruct (controllers_ok_newController s Hok) as (Ha & Hr & Hs).
    split; [|split]; simpl in *; try done.
    intros c [->%elem_of_singleton|Hc]%elem_of_union; [lia|by apply Hs].
  - destruct (timers s !! id) as [tm|]; [|done].
    unfold timerCallback, attemptFetch.
    case_match; apply (controllers_ok_ext (newController s)); try done;
      by apply controllers_ok_newController.
  - destruct (fetches s !! c) as [t|]; [|done]. destruct (t_phase t); [|done].
    unfold fetchContinuation.
    destruct o; repeat case_match; by apply (controllers_ok_ext s).
  - destruct (fetches s !! c) as [t|]; [|done]. destruct (t_phase t); [done|].
    unfold attemptFetch. case_match; by apply (controllers_ok_ext s).
  - case_bool_decide; [|done]. unfold selectionContinuation.
    destruct o; case_match; apply (controllers_ok_ext s); try done;
      cbn [selections setSelections onView];
      by intros x [Hx _]%elem_of_difference.
Qed.

Lemma controllers_ok_step p s e : controllers_ok s → controllers_ok (step p s e).
Proof.
  intros H. unfold step, afterRender.
  apply (controllers_ok_ext
    (if bool_decide (query (view (handle p e s)) = query (view s))
     then handle p e s else queryEffect p (handle p e s))); try done.
  case_bool_decide; [|apply controllers_ok_queryEffect];
    by apply controllers_ok_handle.
Qed.

Lemma reachable_controllers_ok p s : reachable p s → controllers_ok s.
Proof.
  apply (reachable_ind p controllers_ok); [apply controllers_ok_init|].
  intros; by apply controllers_ok_step.
Qed.

End MoreInvariants.

(** *** Asynchronous events in a settled state *)

Section AsyncSteps.
Context {T : Type}.
Implicit Types (s : State T) (w : View T) (p : UseAutocompleteParams)
  (e : Event T) (o : Outcome T) (c : nat).

Lemma settled_same_list s s' :
  highlight (view s') = highlight (view s) →
  suggestions (view s') = suggestions (view s) →
  settled s → settled s'.
Proof.
  unfold settled, highlightEffect. intros Hh Hl. rewrite Hh, Hl.
  case_match; [|done]. intros Heq.
  assert (highlight (view s) = (-1)%Z) as Hm.
  { by rewrite <- Heq. }
  destruct (view s'); simpl in *. by rewrite Hh, Hm.
Qed.

Lemma step_timerFire p s id tm :
  settled s → timers s !! id = Some tm →
  step p s (TimerFire id) = timerCallback p tm (clearTimeout id s).
Proof.
  intros Hs Hl.
  assert (handle p (TimerFire id) s = timerCallback p tm (clearTimeout id s)) as Hh.
  { unfold handle. by rewrite Hl. }
  rewrite step_same_query; rewrite Hh;
    unfold timerCallback, attemptFetch; [|by case_match].
  apply onView_settled. by case_match; apply (settled_same_list s).
Qed.

Lemma step_timerFire_stale p s id :
  settled s → timers s !! id = None → step p s (TimerFire id) = s.
Proof.
  intros Hs Hl.
  assert (handle p (TimerFire id) s = s) as Hh.
  { unfold handle. by rewrite Hl. }
  rewrite step_same_query; rewrite Hh; [|done]. by apply onView_settled.
Qed.

Lemma step_fetchSettled p s c t o :
  fetches s !! c = Some t → t_phase t = AwaitFetch →
  step p s (FetchSettled c o) =
    onView highlightEffect (fetchContinuation p c t o s).
Proof.
  intros Hl Hph.
  assert (handle p (FetchSettled c o) s = fetchContinuation p c t o s) as Hh.
  { unfold handle. by rewrite Hl, Hph. }
  rewrite step_same_query; rewrite Hh; [done|].
  unfold fetchContinuation. destruct o; repeat case_match; done.
Qed.

Lemma step_backoffElapsed p s c t ms :
  settled s → fetches s !! c = Some t → t_phase t = AwaitBackoff ms →
  step p s (BackoffElapsed c) =
    attemptFetch p c (t_q t) (t_key t) (t_attempt t + 1) s.
Proof.
  intros Hs Hl Hph.
  assert (handle p (BackoffElapsed c) s =
          attemptFetch p c (t_q t) (t_key t) (t_attempt t + 1) s) as Hh.
  { unfold handle. by rewrite Hl, Hph. }
  rewrite step_same_query; rewrite Hh; unfold attemptFetch; [|by case_match].
  apply onView_settled. by case_match; apply (settled_same_list s).
Qed.

Lemma handle_timers_refs p e s :
  debounceRef (handle p e s) = debounceRef s ∧
  nextTimer (handle p e s) = nextTimer s.
Proof.
  destruct e as [val| |delta|idx|l|value|id|c o|c|c o]; unfold handle; try done.
  - unfold handleSelection. by case_match.
  - destruct (timers s !! id); [|done].
    unfold timerCallback, attemptFetch. by case_match.
  - destruct (fetches s !! c) as [t|]; [|done]. destruct (t_phase t); [|done].
    unfold fetchContinuation. destruct o; repeat case_match; done.
  - destruct (fetches s !! c) as [t|]; [|done]. destruct (t_phase t); [done|].
    unfold attemptFetch. by case_match.
  - case_bool_decide; [|done]. unfold selectionContinuation.
    destruct o; case_match; done.
Qed.

(** The query effect disarms every timer armed before it ran. *)
Lemma queryEffect_disarms p s id :
  timers_ok s → id < nextTimer s → timers (queryEffect p s) !! id = None.
Proof.
  intros (Ht & Hd) Hlt.
  destruct (timers (queryEffect p s) !! id) as [tm|] eqn:Hl; [exfalso|done].
  revert Hl. unfold queryEffect, runCleanup, clearDebounce, abortCurrent.
  destruct s as [w [dr|] [ar|] cr [] tms nt ab nc fs sels fl sl]; simpl in *;
    (destruct (Str.isEmpty _); simpl; [|destruct (cache_get _ _); simpl]);
    intros Hl;
    repeat match goal with
    | H : <[_:=_]> _ !! _ = Some _ |- _ =>
        apply lookup_insert_Some in H as [[<- _]|[_ H]]
    | H : delete _ _ !! _ = Some _ |- _ =>
        apply lookup_delete_Some in H as [? H]
    end;
    try lia; specialize (Ht _ _ Hl); congruence.
Qed.

End AsyncSteps.

(** ** More on the cache *)

Section MoreCacheFacts.
Context {T : Type}.
Implicit Types (c : list (string * list T)) (k key : string) (v : list T).

Lemma cache_get_set key v c : cache_get key (cache_set key v c) = Some v.
Proof.
  induction c as [|[k w] r IH]; simpl.
  - by rewrite decide_True.
  - case_decide as Hk; simpl; [by rewrite decide_True|by rewrite decide_False].
Qed.

Lemma cache_get_set_other key k v c :
  k ≠ key → cache_get k (cache_set key v c) = cache_get k c.
Proof.
  intros Hne. induction c as [|[k' w] r IH]; simpl.
  - by rewrite decide_False.
  - case_decide as Hk; simpl.
    + subst k'. by rewrite !decide_False by done.
    + case_decide; [done|apply IH].
Qed.

Lemma cache_get_None_notin key c : cache_get key c = None → key ∉ c.*1.
Proof.
  induction c as [|[k w] r IH]; simpl.
  - intros _ H. by apply elem_of_nil in H.
  - case_decide as Hk; [done|]. intros Hget.
    apply not_elem_of_cons. split; [congruence|by apply IH].
Qed.

Lemma cache_get_app_fresh key c l :
  key ∉ c.*1 → cache_get key (c ++ l) = cache_get key l.
Proof.
  induction c as [|[k w] r IH]; simpl; [done|].
  intros [Hne Hr]%not_elem_of_cons. rewrite decide_False by done. by apply IH.
Qed.

Lemma cache_set_length_present key v c :
  key ∈ c.*1 → length (cache_set key v c) = length c.
Proof.
  intros Hin.
  by rewrite <- (length_fmap fst (cache_set key v c)), cache_set_present,
    length_fmap.
Qed.

Lemma cache_set_NoDup key v c : NoDup c.*1 → NoDup (cache_set key v c).*1.
Proof.
  intros Hnd. destruct (decide (key ∈ c.*1)) as [Hin|Hnin].
  - by rewrite cache_set_present.
  - rewrite cache_set_fresh, fmap_app by done. simpl.
    apply NoDup_app. repeat split; [done| |apply NoDup_singleton].
    intros x Hx ->%list_elem_of_singleton. done.
Qed.

Lemma cache_store_NoDup (m : Z) key v c :
  NoDup c.*1 → NoDup (cache_store m key v c).*1.
Proof.
  intros Hnd. rewrite cache_store_unfold.
  pose proof (cache_set_NoDup key v c Hnd) as Hnd'.
  destruct (m <? _)%Z; [|done].
  destruct (cache_set key v c) as [|x r]; simpl in *; [done|].
  by apply NoDup_cons in Hnd' as [_ ?].
Qed.

(** Insert then look up: a stored list is found again, as long as the
    cache has room for at least one entry. *)
Lemma cache_get_store (m : Z) key v c :
  (1 ≤ m)%Z → (Z.of_nat (length c) ≤ m)%Z →
  cache_get key (cache_store m key v c) = Some v.
Proof.
  intros Hm Hlen. rewrite cache_store_unfold.
  destruct (Z.ltb_spec m (Z.of_nat (length (cache_set key v c)))) as [Hlt|_];
    [|apply cache_get_set].
  destruct (decide (key ∈ c.*1)) as [Hin|Hnin].
  - rewrite cache_set_length_present in Hlt by done. lia.
  - rewrite cache_set_fresh by done.
    destruct c as [|[k w] r]; simpl in *; [lia|].
    apply not_elem_of_cons in Hnin as [Hne Hr].
    rewrite cache_get_app_fresh by done. simpl. by rewrite decide_True.
Qed.

End MoreCacheFacts.

(** ** Normal forms of queries and keys *)

Lemma lowerChar_idem (a : ascii) : Str.lowerChar (Str.lowerChar a) = Str.lowerChar a.
Proof. destruct a as [[] [] [] [] [] [] [] []]; reflexivity. Qed.

Lemma toLowerCase_idem (s : string) :
  Str.toLowerCase (Str.toLowerCase s) = Str.toLowerCase s.
Proof. induction s as [|a s IH]; simpl; [done|]. by rewrite lowerChar_idem, IH. Qed.

Lemma toLowerCase_length (s : string) :
  String.length (Str.toLowerCase s) = String.length s.
Proof. induction s as [|a s IH]; simpl; [done|]. by rewrite IH. Qed.

Section NormalisedFacts.
Context {T : Type}.
Implicit Types (s : State T) (p : UseAutocompleteParams) (e : Event T).

Lemma normalised_init : normalised (@init T).
Proof.
  split; [|split; [|split]]; simpl.
  - intros k H. by apply elem_of_nil in H.
  - intros id tm H. by rewrite lookup_empty in H.
  - intros c t H. by rewrite lookup_empty in H.
  - intros c q H. by apply elem_of_nil in H.
Qed.

Lemma normalised_onView f s : normalised s → normalised (onView f s).
Proof. done. Qed.

Lemma normalised_timers_insert (tms : gmap nat Timer) id tm0 :
  (∀ i tm, tms !! i = Some tm →
     trimmed_query (tm_q tm) ∧ tm_key tm = Str.toLowerCase (tm_q tm)) →
  trimmed_query (tm_q tm0) ∧ tm_key tm0 = Str.toLowerCase (tm_q tm0) →
  ∀ i tm, <[id:=tm0]> tms !! i = Some tm →
     trimmed_query (tm_q tm) ∧ tm_key tm = Str.toLowerCase (tm_q tm).
Proof. intros H H0 i tm [[_ <-]|[_ Hl]]%lookup_insert_Some; eauto. Qed.

Lemma normalised_timers_delete (tms : gmap nat Timer) id :
  (∀ i tm, tms !! i = Some tm →
     trimmed_query (tm_q tm) ∧ tm_key tm = Str.toLowerCase (tm_q tm)) →
  ∀ i tm, delete id tms !! i = Some tm →
     trimmed_query (tm_q tm) ∧ tm_key tm = Str.toLowerCase (tm_q tm).
Proof. intros H i tm [_ Hl]%lookup_delete_Some. eauto. Qed.

Lemma normalised_tasks_insert (fs : gmap nat Task) c t0 :
  (∀ i t, fs !! i = Some t →
     trimmed_query (t_q t) ∧ t_key t = Str.toLowerCase (t_q t)) →
  trimmed_query (t_q t0) ∧ t_key t0 = Str.toLowerCase (t_q t0) →
  ∀ i t, <[c:=t0]> fs !! i = Some t →
     trimmed_query (t_q t) ∧ t_key t = Str.toLowerCase (t_q t).
Proof. intros H H0 i t [[_ <-]|[_ Hl]]%lookup_insert_Some; eauto. Qed.

Lemma normalised_tasks_delete (fs : gmap nat Task) c :
  (∀ i t, fs !! i = Some t →
     trimmed_query (t_q t) ∧ t_key t = Str.toLowerCase (t_q t)) →
  ∀ i t, delete c fs !! i = Some t →
     trimmed_query (t_q t) ∧ t_key t = Str.toLowerCase (t_q t).
Proof. intros H i t [_ Hl]%lookup_delete_Some. eauto. Qed.

Lemma normalised_queryEffect p s : normalised s → normalised (queryEffect p s).
Proof.
  intros (Hc & Ht & Hf & Hl).
  unfold queryEffect, runCleanup, clearDebounce, abortCurrent.
  destruct s as [w [dr|] [ar|] cr [] tms nt ab nc fs sels fl sl]; simpl in *;
    (destruct (Str.isEmpty _) eqn:Hq; simpl;
     [|destruct (cache_get _ _); simpl]);
    (split; [|split; [|split]]); simpl; try done;
    repeat first [apply normalised_timers_insert
                 | apply normalised_timers_delete]; try done;
    simpl; (split; [|done]); (split; [by apply isEmpty_false_iff|by eexists]).
Qed.

Lemma normalised_attemptFetch p s c q a :
  normalised s → trimmed_query q →
  normalised (attemptFetch p c q (Str.toLowerCase q) a s).
Proof.
  intros (Hc & Ht & Hf & Hl) Hq. unfold attemptFetch.
  case_match; (split; [|split; [|split]]); simpl; try done.
  - by apply normalised_tasks_insert.
  - intros c' q' [Hin|[= -> ->]%list_elem_of_singleton]%elem_of_app; eauto.
  - by apply normalised_tasks_delete.
Qed.

Lemma normalised_handle p e s : normalised s → normalised (handle p e s).
Proof.
  intros Hn. pose proof Hn as (Hc & Ht & Hf & Hl).
  destruct e as [val| |delta|idx|l|value|id|c o|c|c o]; unfold handle; try done.
  - unfold handleSelection. by case_match.
  - destruct (timers s !! id) as [tm|] eqn:Htm; [|done].
    destruct (Ht _ _ Htm) as [Hq Hk]. unfold timerCallback. cbv zeta.
    rewrite Hk. apply normalised_attemptFetch; [|done].
    split; [|split; [|split]]; simpl; try done.
    by apply normalised_timers_delete.
  - destruct (fetches s !! c) as [t|] eqn:Hfc; [|done].
    destruct (t_phase t); [|done]. destruct (Hf _ _ Hfc) as [Hq Hk].
    unfold fetchContinuation.
    destruct o; repeat case_match;
      (split; [|split; [|split]]); simpl; try done;
      try (by apply normalised_tasks_delete);
      try (by apply normalised_tasks_insert).
    intros k Hin. apply cache_store_keys in Hin as [->|Hin]; [|by apply Hc].
    rewrite Hk. apply toLowerCase_idem.
  - destruct (fetches s !! c) as [t|] eqn:Hfc; [|done].
    destruct (t_phase t); [done|]. destruct (Hf _ _ Hfc) as [Hq Hk].
    rewrite Hk. by apply normalised_attemptFetch.
  - case_bool_decide; [|done]. unfold selectionContinuation.
    destruct o; case_match; done.
Qed.

Lemma normalised_step p s e : normalised s → normalised (step p s e).
Proof.
  intros H. unfold step, afterRender. apply normalised_onView.
  case_bool_decide; [|apply normalised_queryEffect]; by apply normalised_handle.
Qed.

Lemma reachable_normalised p s : reachable p s → normalised s.
Proof.
  apply (reachable_ind p normalised); [apply normalised_init|].
  intros; by apply normalised_step.
Qed.

Lemma reachable_cache_NoDup p s : reachable p s → NoDup (cacheRef s).*1.
Proof.
  apply (reachable_ind p (λ s, NoDup (cacheRef s).*1)); [apply NoDup_nil_2|].
  intros s0 e _ IH. unfold step. rewrite afterRender_cacheRef.
  destruct (handle_cacheRef p e s0) as [->|(c & t & d & _ & _ & _ & ->)];
    [done|by apply cache_store_NoDup].
Qed.

End NormalisedFacts.

(** ** Properties of reachable states *)

Lemma highlight_always_in_range_witness :
  (-1 ≤ highlight (view (run hit_params init hit_trace))
     < Z.of_nat (length (suggestions (view (run hit_params init hit_trace)))))%Z.
Proof.
  apply (highlight_always_in_range hit_params). by exists hit_trace.
Defined.

(** X2: [loading] and [error] are never set together: whenever [loading]
    is true, [error] is absent.  (Every write of an error message clears
    [loading], every write of [loading = true] clears [error].) *)
Theorem loading_excludes_error {T} (p : UseAutocompleteParams) (s : State T) :
  reachable p s → loading (view s) = true → error (view s) = None.
Proof.
  revert s. apply (reachable_ind p
    (λ s, loading (view s) = true → error (view s) = None)); [done|].
  intros s e _ IH. by apply step_loading_error.
Qed.

Lemma loading_excludes_error_witness :
  error (view (run (T := string) hit_params init [UpdateInput "a"; TimerFire 1]))
    = None.
Proof.
  apply (loading_excludes_error hit_params).
  - by exists [UpdateInput "a"; TimerFire 1].
  - vm_compute. reflexivity.
Defined.

(** X3: debounce.  At most one timer is armed at a time.  Any event that
    changes [query] disarms the timers armed before it, so a keystroke
    that arrives before the delay is over replaces the pending fetch:
    the old timer's firing does nothing. *)
Theorem debounce_single_timer {T} (p : UseAutocompleteParams) (s : State T)
    (e : Event T) :
  reachable p s →
  (∀ id id' tm tm',
     timers s !! id = Some tm → timers s !! id' = Some tm' → id = id') ∧
  (query (view (step p s e)) ≠ query (view s) →
   ∀ id tm, timers s !! id = Some tm →
     timers (step p s e) !! id = None ∧
     step p (step p s e) (TimerFire id) = step p s e).
Proof.
  intros Hr. destruct (reachable_timers_ok p s Hr) as (Ht & Hd). split.
  - intros id id' tm tm' H1 H2.
    apply Ht in H1. apply Ht in H2. congruence.
  - intros Hq id tm Hl.
    assert (timers (step p s e) !! id = None) as Hnone.
    { unfold step, afterRender in *. cbn [view onView timers] in *.
      case_bool_decide as Hsame.
      - exfalso. apply Hq.
        destruct (highlightEffect_frame (view (handle p e s))) as (_ & -> & _).
        done.
      - apply queryEffect_disarms.
        + apply timers_ok_handle. by split.
        + destruct (handle_timers_refs p e s) as (_ & ->).
          apply Hd. by apply (Ht id tm). }
    split; [done|]. apply step_timerFire_stale; [apply step_settled|done].
Qed.

Lemma debounce_single_timer_witness :
  step hit_params
    (run (T := string) hit_params init [UpdateInput "a"; UpdateInput "ab"])
    (TimerFire 1)
  = run hit_params init [UpdateInput "a"; UpdateInput "ab"].
Proof.
  pose proof (debounce_single_timer (T := string) hit_params
    (run hit_params init [UpdateInput "a"]) (UpdateInput "ab")
    ltac:(by exists [UpdateInput "a"])) as [_ H].
  specialize (H ltac:(vm_compute; discriminate) 1
    {| tm_delay := 300; tm_q := "a"; tm_key := "a" |}
    ltac:(vm_compute; reflexivity)).
  exact (proj2 H).
Defined.

(** X4: a cache miss does not call [fetchFn]: it arms exactly one timer
    with delay [debounceMs], and the view keeps its suggestions, flags
    and error.  When that timer fires, [loading] is set, [error] and
    [noResults] are cleared and [fetchFn] is called once, with the
    trimmed query, under a new controller, which [abortRef] then holds. *)
Theorem cache_miss_waits_for_debounce {T} (p : UseAutocompleteParams)
    (s : State T) (val : string) :
  reachable p s →
  (minChars (destructure p) ≤ Z.of_nat (String.length val))%Z →
  val ≠ query (view s) →
  Str.trim val ≠ EmptyString →
  cache_get (Str.toLowerCase (Str.trim val)) (cacheRef s) = None →
  let s1 := step p s (UpdateInput val) in
  let s2 := step p s1 (TimerFire (nextTimer s)) in
  (timers s1 !! nextTimer s =
     Some {| tm_delay := debounceMs (destructure p); tm_q := Str.trim val;
             tm_key := Str.toLowerCase (Str.trim val) |} ∧
   (∀ id, id ≠ nextTimer s → timers s1 !! id = None) ∧
   fetchLog s1 = fetchLog s ∧ fetches s1 = fetches s ∧
   suggestions (view s1) = suggestions (view s) ∧
   loading (view s1) = loading (view s) ∧ error (view s1) = error (view s) ∧
   noResults (view s1) = noResults (view s)) ∧
  (fetchLog s2 = fetchLog s ++ [(nextController s, Str.trim val)] ∧
   abortRef s2 = Some (nextController s) ∧
   (∀ id, timers s2 !! id = None) ∧
   loading (view s2) = true ∧ error (view s2) = None ∧
   noResults (view s2) = false ∧
   suggestions (view s2) = suggestions (view s)).
Proof.
  intros Hr Hlen Hne Htrim Hmiss s1 s2.
  assert (view (handle p (UpdateInput val) s)
          = setQuery val (setHighlight (-1) (setInput val (view s)))) as Hv.
  { simpl. unfold updateInput.
    destruct (Z.geb_spec (Z.of_nat (String.length val)) (minChars (destructure p)));
      [done|lia]. }
  assert (s1 = onView highlightEffect (queryEffect p (handle p (UpdateInput val) s)))
    as Hs1.
  { subst s1. apply step_changed_query. by rewrite Hv. }
  destruct (queryEffect_miss p (handle p (UpdateInput val) s))
    as (Hview & Hdr & Hnew).
  { rewrite Hv. by apply isEmpty_false_iff. }
  { by rewrite Hv. }
  rewrite Hv in Hnew. cbn [query setQuery] in Hnew.
  change (nextTimer (handle p (UpdateInput val) s)) with (nextTimer s) in *.
  assert (timers s1 !! nextTimer s =
     Some {| tm_delay := debounceMs (destructure p); tm_q := Str.trim val;
             tm_key := Str.toLowerCase (Str.trim val) |}) as Ht1.
  { by rewrite Hs1. }
  assert (reachable p s1) as Hr1 by (by apply reachable_step).
  destruct (reachable_timers_ok p s1 Hr1) as (Hto & _).
  assert (debounceRef s1 = Some (nextTimer s)) as Hd1 by (by rewrite Hs1).
  assert (∀ id, id ≠ nextTimer s → timers s1 !! id = None) as Hothers.
  { intros id Hid. destruct (timers s1 !! id) as [tm|] eqn:Hl; [|done].
    apply Hto in Hl. congruence. }
  assert (view s1 = setQuery val (setHighlight (-1) (setInput val (view s))))
    as Hv1.
  { rewrite Hs1. cbn [view onView]. rewrite Hview, Hv.
    by apply highlightEffect_unset. }
  split.
  - rewrite Hv1. repeat split; try done.
    + subst s1. unfold step. by rewrite afterRender_fetchLog.
    + subst s1. unfold step. by rewrite afterRender_fetches.
  - assert (s2 = timerCallback p
      {| tm_delay := debounceMs (destructure p); tm_q := Str.trim val;
         tm_key := Str.toLowerCase (Str.trim val) |}
      (clearTimeout (nextTimer s) s1)) as Hs2.
    { subst s2. apply step_timerFire; [apply step_settled|done]. }
    assert (fetchLog s1 = fetchLog s) as Hfl.
    { subst s1. unfold step. by rewrite afterRender_fetchLog. }
    assert (nextController s1 = nextController s) as Hnc.
    { subst s1. unfold step. by rewrite afterRender_nextController. }
    clearbody s1 s2. rewrite Hs2. unfold timerCallback, attemptFetch.
    destruct (Z.ltb_spec 0 (maxAttempts p)) as [_|Hle];
      [|pose proof (maxAttempts_pos p); lia].
    cbn. rewrite Hfl, Hnc, Hv1. repeat split; try done.
    intros id. destruct (decide (id = nextTimer s)) as [->|Hid].
    + by rewrite lookup_delete_eq.
    + rewrite lookup_delete_ne by done. by apply Hothers.
Qed.

Lemma cache_miss_waits_for_debounce_witness :
  fetchLog (run (T := string) hit_params init [UpdateInput " a "; TimerFire 1])
    = [(0, "a")].
Proof.
  pose proof (cache_miss_waits_for_debounce (T := string) hit_params init " a "
    ltac:(by exists []) ltac:(vm_compute; discriminate)
    ltac:(discriminate) ltac:(vm_compute; discriminate)
    ltac:(reflexivity)) as H.
  cbv zeta in H. destruct H as (_ & H & _). exact H.
Defined.

Ltac st_cbn :=
  cbn [view fetches fetchLog cacheRef aborted abortRef timers nextController
       nextTimer debounceRef selections selectionLog cleanup onView setFetches
       setCacheRef setCleanup setSelections clearTimeout setTimeout abort
       newController callFetchFn callSelectionFn t_q t_key t_attempt t_phase
       tm_q tm_key tm_delay input query suggestions loading error highlight
       noResults setInput setQuery setSuggestions setLoading setError
       setHighlight setNoResults].

(** X5: one transient failure is invisible.  From any reachable state with
    an armed timer: the timer fires, the first call of [fetchFn] fails,
    the back-off ends and the second call resolves.  The state then shows
    the result of the second call with no error, [fetchFn] has been
    called exactly twice with the same query, and the result is in the
    cache. *)
Theorem retry_recovers_after_one_failure {T} (p : UseAutocompleteParams)
    (s : State T) (id : nat) (tm : Timer) (d : Payload T) :
  reachable p s → timers s !! id = Some tm →
  let c := nextController s in
  let s4 := run p s [TimerFire id; FetchSettled c Rejected; BackoffElapsed c;
                     FetchSettled c (Resolved d)] in
  suggestions (view s4) = toArray d ∧ noResults (view s4) = isNil (toArray d) ∧
  loading (view s4) = false ∧ error (view s4) = None ∧
  fetchLog s4 = fetchLog s ++ [(c, tm_q tm); (c, tm_q tm)] ∧
  cacheRef s4 =
    cache_store (maxCache (destructure p)) (tm_key tm) (toArray d) (cacheRef s) ∧
  fetches s4 !! c = None.
Proof.
  intros Hr Htm c s4.
  destruct (reachable_controllers_ok p s Hr) as (Hab & _ & _).
  assert (c ∉ aborted s) as Hc.
  { intros Hin. apply Hab in Hin. subst c. lia. }
  pose proof (reachable_settled p s Hr) as Hs.
  set (s1 := timerCallback p tm (clearTimeout id s)).
  set (s2 := setFetches
    (<[c := {| t_q := tm_q tm; t_key := tm_key tm; t_attempt := 0;
               t_phase := AwaitBackoff (backoffBase p * (0 + 1)) |}]>
       (fetches s1)) s1).
  set (s3 := attemptFetch p c (tm_q tm) (tm_key tm) (0 + 1) s2).
  assert (step p s (TimerFire id) = s1) as H1 by by apply step_timerFire.
  assert (settled s1) as Hs1.
  { apply (settled_same_list s); [| |done];
      subst s1; unfold timerCallback, attemptFetch; by case_match. }
  assert (fetches s1 !! c =
    Some {| t_q := tm_q tm; t_key := tm_key tm; t_attempt := 0;
            t_phase := AwaitFetch |}) as Hl1.
  { subst s1. unfold timerCallback, attemptFetch.
    change (0 <? maxAttempts p)%Z with true. st_cbn. by rewrite lookup_insert_eq. }
  assert (aborted s1 = aborted s) as Hab1.
  { subst s1. unfold timerCallback, attemptFetch. by case_match. }
  assert (step p s1 (FetchSettled c Rejected) = s2) as H2.
  { rewrite (step_fetchSettled p s1 c _ Rejected Hl1 eq_refl).
    unfold fetchContinuation. rewrite Hab1, bool_decide_false by done.
    st_cbn. change (0 =? maxAttempts p - 1)%Z with false. cbn match.
    by apply onView_settled, (settled_same_list s1). }
  assert (settled s2) as Hs2 by by apply (settled_same_list s1).
  assert (fetches s2 !! c =
    Some {| t_q := tm_q tm; t_key := tm_key tm; t_attempt := 0;
            t_phase := AwaitBackoff (backoffBase p * (0 + 1)) |}) as Hl2.
  { subst s2. st_cbn. by rewrite lookup_insert_eq. }
  assert (step p s2 (BackoffElapsed c) = s3) as H3.
  { by rewrite (step_backoffElapsed p s2 c _ _ Hs2 Hl2 eq_refl). }
  assert (fetches s3 !! c =
    Some {| t_q := tm_q tm; t_key := tm_key tm; t_attempt := (0 + 1)%Z;
            t_phase := AwaitFetch |}) as Hl3.
  { subst s3. unfold attemptFetch.
    change (0 + 1 <? maxAttempts p)%Z with true. st_cbn.
    by rewrite lookup_insert_eq. }
  assert (aborted s3 = aborted s) as Hab3.
  { subst s3 s2. unfold attemptFetch.
    change (0 + 1 <? maxAttempts p)%Z with true. st_cbn. exact Hab1. }
  assert (error (view s3) = None ∧
          fetchLog s3 = fetchLog s ++ [(c, tm_q tm); (c, tm_q tm)] ∧
          cacheRef s3 = cacheRef s) as (He & Hfl & Hcr).
  { subst s3 s2 s1. unfold attemptFetch, timerCallback, attemptFetch.
    change (0 + 1 <? maxAttempts p)%Z with true.
    change (0 <? maxAttempts p)%Z with true. st_cbn.
    rewrite <- app_assoc. done. }
  assert (s4 = onView highlightEffect
            (fetchContinuation p c
               {| t_q := tm_q tm; t_key := tm_key tm; t_attempt := (0 + 1)%Z;
                  t_phase := AwaitFetch |} (Resolved d) s3)) as ->.
  { subst s4. unfold run. cbn [fold_left]. rewrite H1, H2, H3.
    by apply step_fetchSettled. }
  clearbody s3. unfold fetchContinuation.
  rewrite Hab3, bool_decide_false by done. st_cbn.
  destruct (highlightEffect_frame
    (setLoading false (setNoResults (isNil (toArray d))
       (setSuggestions (toArray d) (view s3)))))
    as (_ & _ & -> & -> & -> & ->).
  cbn [suggestions noResults loading error setLoading setNoResults setSuggestions].
  rewrite He, Hfl, Hcr, lookup_delete_eq. done.
Qed.

Lemma retry_recovers_after_one_failure_witness :
  suggestions (view (run (T := string) hit_params
    (run hit_params init [UpdateInput "a"])
    [TimerFire 1; FetchSettled 0 Rejected; BackoffElapsed 0;
     FetchSettled 0 (Resolved (IsArray ["apple"]))])) = ["apple"].
Proof.
  pose proof (retry_recovers_after_one_failure (T := string) hit_params
    (run hit_params init [UpdateInput "a"]) 1
    {| tm_delay := 300; tm_q := "a"; tm_key := "a" |} (IsArray ["apple"])
    ltac:(by exists [UpdateInput "a"]) ltac:(vm_compute; reflexivity)) as H.
  cbv zeta in H. exact (proj1 H).
Defined.

(** X6: write-through.  When a fetch resolves under a controller that is
    not aborted, the view shows its result (a result that is not an array
    counts as the empty list), [loading] is cleared, and the list is
    stored under the callback's key.  With room for at least one entry it
    is found there, so typing any query with that key afterwards is
    answered from the cache without calling [fetchFn]. *)
Theorem fetched_query_is_served_from_cache {T} (p : UseAutocompleteParams)
    (s : State T) (c : nat) (t : Task) (d : Payload T) (val : string) :
  reachable p s →
  fetches s !! c = Some t → t_phase t = AwaitFetch → c ∉ aborted s →
  (1 ≤ maxCache (destructure p))%Z →
  Str.toLowerCase (Str.trim val) = t_key t →
  (minChars (destructure p) ≤ Z.of_nat (String.length val))%Z →
  val ≠ query (view s) →
  let s1 := step p s (FetchSettled c (Resolved d)) in
  let s2 := step p s1 (UpdateInput val) in
  suggestions (view s1) = toArray d ∧
  noResults (view s1) = isNil (toArray d) ∧
  loading (view s1) = false ∧ error (view s1) = error (view s) ∧
  query (view s1) = query (view s) ∧
  fetches s1 !! c = None ∧
  cacheRef s1 =
    cache_store (maxCache (destructure p)) (t_key t) (toArray d) (cacheRef s) ∧
  cache_get (t_key t) (cacheRef s1) = Some (toArray d) ∧
  suggestions (view s2) = toArray d ∧ fetchLog s2 = fetchLog s ∧
  nextTimer s2 = nextTimer s.
Proof.
  intros Hr Hl Hph Hab Hm Hkey Hlen Hne s1 s2.
  assert (s1 = onView highlightEffect
    (setFetches (delete c (fetches s))
       (onView (setLoading false) (onView (setNoResults (isNil (toArray d)))
          (onView (setSuggestions (toArray d))
             (setCacheRef (cache_store (maxCache (destructure p)) (t_key t)
                             (toArray d) (cacheRef s)) s)))))) as Hs1.
  { subst s1. rewrite (step_fetchSettled p s c t _ Hl Hph).
    unfold fetchContinuation. by rewrite bool_decide_false. }
  assert (reachable p s1) as Hr1 by by apply reachable_step.
  assert (cacheRef s1 = cache_store (maxCache (destructure p)) (t_key t)
                          (toArray d) (cacheRef s)) as Hc1 by by rewrite Hs1.
  assert (cache_get (t_key t) (cacheRef s1) = Some (toArray d)) as Hget.
  { rewrite Hc1. apply cache_get_store; [done|].
    apply reachable_cache_bound; [lia|done]. }
  assert (query (view s1) = query (view s)) as Hq1.
  { rewrite Hs1. cbn [view onView setFetches setCacheRef].
    by destruct (highlightEffect_frame
      (setLoading false (setNoResults (isNil (toArray d))
         (setSuggestions (toArray d) (view s))))) as (_ & -> & _). }
  destruct (step_cache_hit p s1 val (toArray d) Hr1) as (Hv2 & Hfl2 & _ & Hnt2 & _);
    [by rewrite Hkey|done|by rewrite Hq1|].
  fold s2 in Hv2, Hfl2, Hnt2. clearbody s2. rewrite Hv2, Hfl2, Hnt2.
  clearbody s1. rewrite Hs1. cbn [view onView setFetches fetches fetchLog nextTimer
    setCacheRef cacheRef].
  destruct (highlightEffect_frame
    (setLoading false (setNoResults (isNil (toArray d))
       (setSuggestions (toArray d) (view s)))))
    as (_ & _ & -> & -> & -> & ->).
  rewrite lookup_delete_eq. repeat split; try done.
  - by destruct (highlightEffect_frame
      (setLoading false (setNoResults (isNil (toArray d))
         (setSuggestions (toArray d) (view s))))) as (_ & -> & _).
  - by rewrite <- Hc1.
Qed.

Lemma fetched_query_is_served_from_cache_witness :
  suggestions (view (run (T := string) hit_params init
    [UpdateInput "ap"; TimerFire 1;
     FetchSettled 0 (Resolved (IsArray ["apple"])); UpdateInput " AP "]))
  = ["apple"].
Proof.
  pose proof (fetched_query_is_served_from_cache (T := string) hit_params
    (run hit_params init [UpdateInput "ap"; TimerFire 1]) 0
    {| t_q := "ap"; t_key := "ap"; t_attempt := 0; t_phase := AwaitFetch |}
    (IsArray ["apple"]) " AP "
    ltac:(by exists [UpdateInput "ap"; TimerFire 1])
    ltac:(vm_compute; reflexivity) ltac:(reflexivity)
    ltac:(apply (bool_decide_unpack _); vm_compute; exact I)
    ltac:(vm_compute; discriminate) ltac:(reflexivity)
    ltac:(vm_compute; discriminate) ltac:(vm_compute; discriminate)) as H.
  cbv zeta in H. destruct H as (_ & _ & _ & _ & _ & _ & _ & _ & H & _).
  exact H.
Defined.

(** X7: the keys of the cache are pairwise distinct, not empty and
    lower-case, in every reachable state. *)
Theorem cache_keys_canonical {T} (p : UseAutocompleteParams) (s : State T) :
  reachable p s →
  NoDup (cacheRef s).*1 ∧
  ∀ k, k ∈ (cacheRef s).*1 → k ≠ EmptyString ∧ Str.toLowerCase k = k.
Proof.
  intros Hr. split; [by apply (reachable_cache_NoDup p)|].
  intros k Hk. split.
  - destruct (reachable_keys_ok p s Hr) as (H & _). by apply H.
  - destruct (reachable_normalised p s Hr) as (H & _). by apply H.
Qed.

Lemma cache_keys_canonical_witness :
  NoDup (cacheRef (run hit_params init hit_trace)).*1.
Proof.
  apply (cache_keys_canonical hit_params). by exists hit_trace.
Defined.



(** ** The cache, written through the hook *)

Section CacheThroughHook.
Context {T : Type}.
Implicit Types (s : State T) (p : UseAutocompleteParams) (e : Event T)
  (c : nat) (cr : list (string * list T)) (k key : string) (v : list T).

(** A write never takes the cache past the larger of its size and
    [maxCache]. *)
Lemma cache_store_length_max (m : Z) key v cr :
  (Z.of_nat (length (cache_store m key v cr))
     ≤ Z.max (Z.of_nat (length cr)) m)%Z.
Proof.
  rewrite cache_store_unfold.
  pose proof (cache_set_length key v cr) as Hl.
  destruct (Z.ltb_spec m (Z.of_nat (length (cache_set key v cr)))) as [Hlt|Hge].
  - rewrite length_tl. lia.
  - lia.
Qed.

Lemma step_cache_growth p s e :
  (Z.of_nat (length (cacheRef (step p s e)))
     ≤ Z.max (Z.of_nat (length (cacheRef s))) (maxCache (destructure p)))%Z.
Proof.
  unfold step. rewrite afterRender_cacheRef.
  destruct (handle_cacheRef p e s) as [->|(c & t & d & _ & _ & _ & ->)]; [lia|].
  apply cache_store_length_max.
Qed.

Lemma reachable_cache_bound_max p s :
  reachable p s →
  (Z.of_nat (length (cacheRef s)) ≤ Z.max 0 (maxCache (destructure p)))%Z.
Proof.
  revert s. apply reachable_ind; [simpl; lia|].
  intros s e _ IH. pose proof (step_cache_growth p s e). lia.
Qed.

(** The store of a resolved fetch, seen from the step function. *)
Lemma step_fetchSettled_stores p s c (t : Task) (d : Payload T) :
  fetches s !! c = Some t → t_phase t = AwaitFetch → c ∉ aborted s →
  cacheRef (step p s (FetchSettled c (Resolved d))) =
    cache_store (maxCache (destructure p)) (t_key t) (toArray d) (cacheRef s).
Proof.
  intros Hl Hph Hab. rewrite (step_fetchSettled p s c t _ Hl Hph).
  unfold fetchContinuation. by rewrite bool_decide_false.
Qed.

(** No other event writes the cache. *)
Lemma step_cache_frame p s e :
  (∀ c0 d, e ≠ FetchSettled c0 (Resolved d)) →
  cacheRef (step p s e) = cacheRef s.
Proof.
  intros He. unfold step. rewrite afterRender_cacheRef.
  destruct (handle_cacheRef p e s) as [->|(c & t & d & Heq & _)]; [done|].
  by destruct (He c d).
Qed.

Lemma storeAll_keys (m : Z) (kvs : list (string * list T)) k :
  k ∈ (storeAll m kvs).*1 → k ∈ kvs.*1.
Proof.
  induction kvs as [|[k' v'] kvs IH] using rev_ind; [done|].
  rewrite storeAll_snoc, fmap_app. intros Hin.
  apply cache_store_keys in Hin as [->|Hin].
  - apply elem_of_app. right. apply list_elem_of_here.
  - apply elem_of_app. left. by apply IH.
Qed.

Lemma cache_get_fresh key cr : key ∉ cr.*1 → cache_get key cr = None.
Proof.
  intros Hnin. destruct (cache_get key cr) as [v|] eqn:Hget; [|done].
  by apply cache_get_Some_in in Hget.
Qed.

Lemma fetchRound_reachable p s (qd : string * Payload T) :
  reachable p s → reachable p (fetchRound p s qd).
Proof.
  intros Hr. unfold fetchRound, run. cbn [fold_left].
  by do 3 apply reachable_step.
Qed.

Lemma fetchRounds_snoc p (qds : list (string * Payload T)) qd s :
  fetchRounds p (qds ++ [qd]) s = fetchRound p (fetchRounds p qds s) qd.
Proof. unfold fetchRounds. by rewrite fold_left_app. Qed.

Lemma fetchRounds_reachable p (qds : list (string * Payload T)) s :
  reachable p s → reachable p (fetchRounds p qds s).
Proof.
  intros Hr. induction qds as [|qd qds IH] using rev_ind; [done|].
  rewrite fetchRounds_snoc. by apply fetchRound_reachable.
Qed.

(** A complete fetch of a query that misses the cache stores its result
    under the query's key. *)
Lemma fetchRound_stores p s (val : string) (d : Payload T) :
  reachable p s →
  (minChars (destructure p) ≤ Z.of_nat (String.length val))%Z →
  val ≠ query (view s) →
  Str.trim val ≠ EmptyString →
  cache_get (cacheKey val) (cacheRef s) = None →
  let s3 := fetchRound p s (val, d) in
  cacheRef s3 =
    cache_store (maxCache (destructure p)) (cacheKey val) (toArray d) (cacheRef s) ∧
  query (view s3) = val ∧
  suggestions (view s3) = toArray d.
Proof.
  intros Hr Hlen Hne Htrim Hmiss. unfold fetchRound, run. cbn [fold_left fst snd].
  set (s1 := step p s (UpdateInput val)).
  set (tm := {| tm_delay := debounceMs (destructure p); tm_q := Str.trim val;
                tm_key := cacheKey val |}).
  assert (view (handle p (UpdateInput val) s)
          = setQuery val (setHighlight (-1) (setInput val (view s)))) as Hv.
  { simpl. unfold updateInput.
    destruct (Z.geb_spec (Z.of_nat (String.length val)) (minChars (destructure p)));
      [done|lia]. }
  assert (s1 = onView highlightEffect (queryEffect p (handle p (UpdateInput val) s)))
    as Hs1.
  { subst s1. apply step_changed_query. by rewrite Hv. }
  destruct (queryEffect_miss p (handle p (UpdateInput val) s))
    as (Hview & Hdr & Hnew).
  { rewrite Hv. by apply isEmpty_false_iff. }
  { by rewrite Hv. }
  rewrite Hv in Hnew. cbn [query setQuery] in Hnew.
  change (nextTimer (handle p (UpdateInput val) s)) with (nextTimer s) in *.
  assert (timers s1 !! nextTimer s = Some tm) as Ht1 by (by rewrite Hs1).
  assert (reachable p s1) as Hr1 by (by apply reachable_step).
  assert (query (view s1) = val) as Hq1.
  { rewrite Hs1. cbn [view onView]. rewrite Hview, Hv.
    by rewrite highlightEffect_unset. }
  assert (cacheRef s1 = cacheRef s) as Hc1.
  { subst s1. unfold step. by rewrite afterRender_cacheRef. }
  assert (nextController s1 = nextController s) as Hnc.
  { subst s1. unfold step. by rewrite afterRender_nextController. }
  destruct (reachable_controllers_ok p s1 Hr1) as (Hab & _ & _).
  assert (nextController s ∉ aborted s1) as Hfresh.
  { intros Hin. apply Hab in Hin. lia. }
  set (s2 := step p s1 (TimerFire (nextTimer s))).
  assert (s2 = timerCallback p tm (clearTimeout (nextTimer s) s1)) as Hs2.
  { subst s2. apply step_timerFire; [apply step_settled|done]. }
  set (t := {| t_q := Str.trim val; t_key := cacheKey val; t_attempt := 0;
               t_phase := AwaitFetch |}).
  assert (fetches s2 !! nextController s = Some t ∧ aborted s2 = aborted s1 ∧
          cacheRef s2 = cacheRef s ∧ query (view s2) = val) as (Hl2 & Hab2 & Hc2 & Hq2).
  { clearbody s1 s2. rewrite Hs2. unfold timerCallback, attemptFetch.
    change (0 <? maxAttempts p)%Z with true. st_cbn.
    rewrite Hnc, lookup_insert_eq. done. }
  clearbody s1 s2.
  rewrite (step_fetchSettled p s2 _ t _ Hl2 eq_refl).
  unfold fetchContinuation. rewrite Hab2, bool_decide_false by done. st_cbn.
  destruct (highlightEffect_frame
    (setLoading false (setNoResults (isNil (toArray d))
       (setSuggestions (toArray d) (view s2)))))
    as (_ & -> & -> & _).
  st_cbn. by rewrite Hc2.
Qed.

Lemma trim_empty_query (val : string) : Str.trim val ≠ EmptyString → val ≠ EmptyString.
Proof. intros H ->. by apply H. Qed.

(** Complete fetches of queries with pairwise distinct keys, from the
    mounted hook: the cache is what the writes alone produce. *)
Lemma fetchRounds_cache p (qds : list (string * Payload T)) :
  Forall (λ qd, (minChars (destructure p) ≤ Z.of_nat (String.length qd.1))%Z ∧
                Str.trim qd.1 ≠ EmptyString) qds →
  NoDup ((λ qd, cacheKey qd.1) <$> qds) →
  cacheRef (fetchRounds p qds init) =
    storeAll (maxCache (destructure p)) (cacheEntry <$> qds) ∧
  query (view (fetchRounds p qds init)) = default EmptyString (fst <$> last qds).
Proof.
  induction qds as [|[val d] qds IH] using rev_ind; intros Hall Hnd; [done|].
  apply Forall_app in Hall as [Hall Hlast].
  apply Forall_singleton in Hlast as [Hlen Htrim]. cbn [fst] in Hlen, Htrim.
  rewrite fmap_app in Hnd. apply NoDup_app in Hnd as (Hnd & Hk & _).
  destruct (IH Hall Hnd) as [Hc Hq].
  rewrite fetchRounds_snoc, fmap_app, last_snoc. cbn [fmap list_fmap].
  change (cacheEntry (val, d)) with (cacheKey val, toArray d).
  rewrite storeAll_snoc.
  destruct (fetchRound_stores p (fetchRounds p qds init) val d) as (-> & -> & _);
    try done.
  - apply fetchRounds_reachable. by exists [].
  - rewrite Hq. destruct (last qds) as [[val' d']|] eqn:Hlastq; simpl.
    + intros ->. apply (Hk (cacheKey val')).
      * apply list_elem_of_fmap. exists (val', d'). split; [done|].
        by apply last_Some_elem_of.
      * simpl. apply list_elem_of_here.
    + by apply trim_empty_query.
  - rewrite Hc. apply cache_get_fresh. intros Hin%storeAll_keys.
    rewrite <- list_fmap_compose in Hin.
    apply (Hk (cacheKey val)); [done|]. simpl. apply list_elem_of_here.
  - by rewrite Hc.
Qed.

End CacheThroughHook.

(** ** The cache *)

(** C4: the cache, as the hook writes it.  One step never takes the
    cache past the larger of its size and [maxCache], whatever options
    the earlier renders were given, so the cache of every reachable state
    holds at most [maxCache] entries (none when [maxCache] is negative).
    The write happens when a fetch resolves under a live controller: it
    is [cache_store] under the callback's key.  No other event changes
    the cache, a cache hit included, so a read promotes nothing.  When
    that write brings a new key to a full cache, exactly the oldest entry
    goes and the others keep their order.  Fetching [maxCache + 1]
    queries with distinct keys from the mounted hook leaves [maxCache]
    entries: all but the first. *)
Theorem cache_bounded_fifo {T} (p : UseAutocompleteParams) :
  let m := maxCache (destructure p) in
  (∀ (s : State T) e,
     (Z.of_nat (length (cacheRef (step p s e)))
        ≤ Z.max (Z.of_nat (length (cacheRef s))) m)%Z) ∧
  (∀ s : State T, reachable p s →
     (Z.of_nat (length (cacheRef s)) ≤ Z.max 0 m)%Z) ∧
  (∀ (s : State T) c t d,
     fetches s !! c = Some t → t_phase t = AwaitFetch → c ∉ aborted s →
     cacheRef (step p s (FetchSettled c (Resolved d))) =
       cache_store m (t_key t) (toArray d) (cacheRef s)) ∧
  (∀ (s : State T) e, (∀ c d, e ≠ FetchSettled c (Resolved d)) →
     cacheRef (step p s e) = cacheRef s) ∧
  (∀ (s : State T) c t d k0 v0 rest,
     fetches s !! c = Some t → t_phase t = AwaitFetch → c ∉ aborted s →
     cacheRef s = (k0, v0) :: rest →
     t_key t ∉ ((k0, v0) :: rest).*1 →
     Z.of_nat (length ((k0, v0) :: rest)) = m →
     cacheRef (step p s (FetchSettled c (Resolved d))) =
       rest ++ [(t_key t, toArray d)]) ∧
  (∀ qds : list (string * Payload T),
     Forall (λ qd, (minChars (destructure p) ≤ Z.of_nat (String.length qd.1))%Z ∧
                   Str.trim qd.1 ≠ EmptyString) qds →
     NoDup ((λ qd, cacheKey qd.1) <$> qds) →
     (0 ≤ m)%Z →
     let s := fetchRounds p qds init in
     cacheRef s = drop (length qds - Z.to_nat m) (cacheEntry <$> qds) ∧
     (Z.of_nat (length qds) = (m + 1)%Z →
      cacheRef s = tail (cacheEntry <$> qds) ∧
      Z.of_nat (length (cacheRef s)) = m)).
Proof.
  intros m. repeat split.
  - intros s e. apply step_cache_growth.
  - intros s Hr. by apply reachable_cache_bound_max.
  - intros s c t d. apply step_fetchSettled_stores.
  - intros s e. apply step_cache_frame.
  - intros s c t d k0 v0 rest Hl Hph Hab Hc Hfresh Hlen.
    rewrite (step_fetchSettled_stores p s c t d Hl Hph Hab), Hc.
    by apply cache_store_overflow.
  - destruct (fetchRounds_cache p qds) as [-> _]; [done..|].
    rewrite storeAll_distinct, length_fmap; [done|done|].
    by rewrite <- list_fmap_compose.
  - destruct (fetchRounds_cache p qds) as [-> _]; [done..|].
    rewrite storeAll_distinct, length_fmap; [|done|by rewrite <- list_fmap_compose].
    replace (length qds - Z.to_nat _) with 1 by (unfold m in *; lia).
    by destruct (cacheEntry <$> qds).
  - destruct (fetchRounds_cache p qds) as [-> _]; [done..|].
    rewrite storeAll_distinct, length_fmap; [|done|by rewrite <- list_fmap_compose].
    rewrite length_drop, length_fmap. unfold m in *. lia.
Qed.

Lemma cache_bounded_fifo_witness :
  fetchRounds small_cache_params three_fetches init =
    run small_cache_params init
               [UpdateInput "a"; TimerFire 1;
                FetchSettled 0 (Resolved (IsArray ["apple"]));
                UpdateInput "b"; TimerFire 2;
                FetchSettled 1 (Resolved (IsArray ["banana"]));
                UpdateInput "c"; TimerFire 3;
                FetchSettled 2 (Resolved (IsArray ["cherry"]))] ∧
  cacheRef (fetchRounds small_cache_params three_fetches init)
    = [("b", ["banana"]); ("c", ["cherry"])].
Proof.
  split; [vm_compute; reflexivity|].
  pose proof (cache_bounded_fifo (T := string) small_cache_params) as H.
  cbv zeta in H. destruct H as (_ & _ & _ & _ & _ & H).
  destruct (H three_fetches) as [_ Hq].
  - repeat constructor; vm_compute; discriminate.
  - apply (bool_decide_unpack _). vm_compute. exact I.
  - vm_compute. discriminate.
  - destruct (Hq ltac:(reflexivity)) as [Hc _]. rewrite Hc. reflexivity.
Defined.

(** ** Cancellation *)

Section CancelFacts.
Context {T : Type}.
Implicit Types (s : State T) (p : UseAutocompleteParams) (e : Event T).

(** Only [updateInput] and [clear] write [query], and neither touches
    [abortRef]. *)
Lemma handle_query_change_abortRef p e s :
  query (view (handle p e s)) ≠ query (view s) →
  abortRef (handle p e s) = abortRef s.
Proof.
  destruct e as [val| |delta|idx|l|value|id|c o|c|c o]; unfold handle;
    try done; intros Hq; exfalso; apply Hq.
  - unfold handleSelection. by case_match.
  - destruct (timers s !! id); [|done].
    unfold timerCallback, attemptFetch. by case_match.
  - destruct (fetches s !! c) as [t|]; [|done]. destruct (t_phase t); [|done].
    unfold fetchContinuation. destruct o; repeat case_match; done.
  - destruct (fetches s !! c) as [t|]; [|done]. destruct (t_phase t); [done|].
    unfold attemptFetch. by case_match.
  - case_bool_decide; [|done]. unfold selectionContinuation.
    destruct o; case_match; done.
Qed.

Lemma step_query_change_aborts p s e c :
  abortRef s = Some c →
  query (view (step p s e)) ≠ query (view s) →
  c ∈ aborted (step p s e).
Proof.
  intros Href Hq. unfold step, afterRender in *. cbn [view onView aborted] in *.
  case_bool_decide as Hsame.
  - exfalso. apply Hq.
    by destruct (highlightEffect_frame (view (handle p e s))) as (_ & -> & _).
  - apply queryEffect_aborts_current.
    by rewrite handle_query_change_abortRef.
Qed.

Lemma selectionSettled_aborted p s c o :
  settled s → c ∈ aborted s →
  view (step p s (SelectionSettled c o)) = view s ∧
  cacheRef (step p s (SelectionSettled c o)) = cacheRef s.
Proof.
  intros Hs Hc.
  assert (view (handle p (SelectionSettled c o) s) = view s ∧
          cacheRef (handle p (SelectionSettled c o) s) = cacheRef s) as [Hv Hcr].
  { unfold handle, selectionContinuation. case_bool_decide; [|done].
    cbn [aborted setSelections]. destruct o; by rewrite bool_decide_true. }
  split; [by apply step_view_unchanged|].
  unfold step. by rewrite afterRender_cacheRef.
Qed.

End CancelFacts.

(** X9: a change of [query], by typing or by [clear], cancels the request
    whose controller [abortRef] holds: whatever happens afterwards, when
    that request settles, be it a fetch or a selection fetch, resolved
    or rejected, neither the view nor the cache changes. *)
Theorem query_change_cancels_current_request {T} (p : UseAutocompleteParams)
    (s : State T) (e : Event T) (c : nat) (es : list (Event T)) (o : Outcome T) :
  abortRef s = Some c →
  query (view (step p s e)) ≠ query (view s) →
  let s1 := run p (step p s e) es in
  c ∈ aborted s1 ∧
  view (step p s1 (FetchSettled c o)) = view s1 ∧
  cacheRef (step p s1 (FetchSettled c o)) = cacheRef s1 ∧
  view (step p s1 (SelectionSettled c o)) = view s1 ∧
  cacheRef (step p s1 (SelectionSettled c o)) = cacheRef s1.
Proof.
  intros Href Hq s1.
  assert (c ∈ aborted s1) as Hc
    by by apply run_aborted_mono, step_query_change_aborts.
  assert (settled s1) as Hs.
  { subst s1. destruct es as [|e' es _] using rev_ind; [apply step_settled|].
    rewrite run_snoc. apply step_settled. }
  destruct (step_fetchSettled_aborted p s1 c o Hs Hc) as [H1 H2].
  destruct (selectionSettled_aborted p s1 c o Hs Hc) as [H3 H4].
  done.
Qed.

Lemma query_change_cancels_current_request_witness :
  view (run (T := string) hit_params init
          [UpdateInput "a"; TimerFire 1; Clear;
           FetchSettled 0 (Resolved (IsArray ["apple"]))])
  = view (run hit_params init [UpdateInput "a"; TimerFire 1; Clear]).
Proof.
  pose proof (query_change_cancels_current_request (T := string) hit_params
    (run hit_params init [UpdateInput "a"; TimerFire 1]) Clear 0 []
    (Resolved (IsArray ["apple"]))
    ltac:(vm_compute; reflexivity) ltac:(vm_compute; discriminate)) as H.
  cbv zeta in H. destruct H as (_ & H & _). exact H.
Defined.

(** X10: [clear] resets [input], [query], [suggestions], [highlight],
    [noResults] and [error] and leaves [loading] as it is; it calls
    nothing and arms no timer, and a second [clear] changes nothing.
    So when a fetch is in flight under the controller in [abortRef],
    [clear] cancels it but [loading] stays true, also after that fetch
    has settled. *)
Theorem clear_resets_all_but_loading {T} (p : UseAutocompleteParams)
    (s : State T) (c : nat) (o : Outcome T) :
  let s1 := step p s Clear in
  let s2 := step p s1 (FetchSettled c o) in
  view s1 = {| input := ""; query := ""; suggestions := [];
               loading := loading (view s); error := None;
               highlight := (-1)%Z; noResults := false |} ∧
  step p s1 Clear = s1 ∧
  fetchLog s1 = fetchLog s ∧ nextTimer s1 = nextTimer s ∧
  cacheRef s1 = cacheRef s ∧
  (abortRef s = Some c → query (view s) ≠ EmptyString →
   c ∈ aborted s1 ∧ loading (view s2) = loading (view s)).
Proof.
  intros s1 s2.
  assert (view (handle p Clear s) = {| input := ""; query := ""; suggestions := [];
               loading := loading (view s); error := None;
               highlight := (-1)%Z; noResults := false |}) as Hv by done.
  assert (view s1 = view (handle p Clear s) ∧ nextTimer s1 = nextTimer s)
    as [Hv1 Hnt].
  { subst s1. unfold step, afterRender. cbn [view onView nextTimer].
    case_bool_decide.
    - split; [|done]. by apply highlightEffect_unset.
    - destruct (queryEffect_empty p (handle p Clear s)) as (Hview & Hn & _);
        [done|].
      rewrite Hview, Hn. split; [|done]. by apply highlightEffect_unset. }
  assert (step p s1 Clear = s1) as Hidem.
  { rewrite step_same_query; [|by rewrite Hv1, Hv].
    unfold handle. clearbody s1.
    destruct s1 as [w1 dr ar cr cl tms nt ab nc fs sels fl sl].
    cbn [view] in Hv1. rewrite Hv1, Hv. reflexivity. }
  assert (fetchLog s1 = fetchLog s) as Hfl.
  { subst s1. unfold step. by rewrite afterRender_fetchLog. }
  assert (cacheRef s1 = cacheRef s) as Hcr.
  { subst s1. unfold step. by rewrite afterRender_cacheRef. }
  assert (abortRef s = Some c → query (view s) ≠ EmptyString → c ∈ aborted s1)
    as Hab.
  { intros Href Hq. apply step_query_change_aborts; [done|].
    fold s1. by rewrite Hv1, Hv. }
  assert (settled s1) as Hs1 by apply step_settled.
  subst s2. clearbody s1. rewrite Hv1, Hv in *.
  split; [done|]. split; [done|]. split; [done|]. split; [done|].
  split; [done|]. intros Href Hq. split; [by apply Hab|].
  destruct (step_fetchSettled_aborted p s1 c o Hs1 (Hab Href Hq)) as [-> _].
  by rewrite Hv1.
Qed.

Lemma clear_resets_all_but_loading_witness :
  loading (view (run (T := string) hit_params init
    [UpdateInput "a"; TimerFire 1; Clear;
     FetchSettled 0 (Resolved (IsArray ["apple"]))])) = true.
Proof.
  pose proof (clear_resets_all_but_loading (T := string) hit_params
    (run hit_params init [UpdateInput "a"; TimerFire 1]) 0
    (Resolved (IsArray ["apple"]))) as H.
  cbv zeta in H. destruct H as (_ & _ & _ & _ & _ & H).
  destruct (H ltac:(vm_compute; reflexivity) ltac:(vm_compute; discriminate))
    as [_ H2].
  exact H2.
Defined.

(** X11: an input shorter than [minChars] empties [query] and
    [suggestions] and clears [noResults] and [error]; the highlight is
    reset, [loading] is left as it is, [fetchFn] is not called and no
    timer is armed. *)
Theorem short_input_resets {T} (p : UseAutocompleteParams)
    (s : State T) (val : string) :
  (Z.of_nat (String.length val) < minChars (destructure p))%Z →
  let s1 := step p s (UpdateInput val) in
  view s1 = {| input := val; query := ""; suggestions := [];
               loading := loading (view s); error := None;
               highlight := (-1)%Z; noResults := false |} ∧
  fetchLog s1 = fetchLog s ∧ fetches s1 = fetches s ∧
  nextTimer s1 = nextTimer s ∧ cacheRef s1 = cacheRef s.
Proof.
  intros Hlen s1.
  assert (view (handle p (UpdateInput val) s) =
    {| input := val; query := ""; suggestions := [];
       loading := loading (view s); error := None;
       highlight := (-1)%Z; noResults := false |}) as Hv.
  { simpl. unfold updateInput.
    destruct (Z.geb_spec (Z.of_nat (String.length val)) (minChars (destructure p)));
      [lia|done]. }
  subst s1. unfold step.
  rewrite afterRender_fetchLog, afterRender_fetches, afterRender_cacheRef.
  unfold afterRender. cbn [view onView nextTimer]. case_bool_decide.
  - rewrite Hv. by rewrite highlightEffect_unset.
  - destruct (queryEffect_empty p (handle p (UpdateInput val) s))
      as (Hview & Hn & _); [by rewrite Hv|].
    rewrite Hview, Hn, Hv. by rewrite highlightEffect_unset.
Qed.

Lemma short_input_resets_witness :
  suggestions (view (step (T := string)
    {| p_selectionFn := false; p_debounceMs := None; p_minChars := Some 2%Z;
       p_maxCache := None |}
    (onView (setSuggestions ["apple"]) init) (UpdateInput "a"))) = [].
Proof.
  pose proof (short_input_resets (T := string)
    {| p_selectionFn := false; p_debounceMs := None; p_minChars := Some 2%Z;
       p_maxCache := None |}
    (onView (setSuggestions ["apple"]) init) "a" ltac:(vm_compute; reflexivity))
    as H.
  cbv zeta in H. destruct H as (H & _). by rewrite H.
Defined.

(** X12: the retry loop does not look at the signal before it calls
    [fetchFn] again.  When the controller is aborted while the callback
    waits in back-off, the end of the wait still makes the next call (the
    view does not change); only when that call settles does the callback
    stop, without touching the view or the cache and without a further
    call. *)
Theorem aborted_backoff_still_calls_fetchFn {T} (p : UseAutocompleteParams)
    (s : State T) (c : nat) (t : Task) (ms : Z) (o : Outcome T) :
  reachable p s →
  fetches s !! c = Some t → t_phase t = AwaitBackoff ms → c ∈ aborted s →
  let s1 := step p s (BackoffElapsed c) in
  let s2 := step p s1 (FetchSettled c o) in
  fetchLog s1 = fetchLog s ++ [(c, t_q t)] ∧ view s1 = view s ∧
  view s2 = view s ∧ cacheRef s2 = cacheRef s ∧
  fetchLog s2 = fetchLog s1 ∧ fetches s2 !! c = None.
Proof.
  intros Hr Hl Hph Hab s1 s2.
  pose proof (reachable_settled p s Hr) as Hs.
  destruct (reachable_attempts_ok p s Hr) as (Hf & _ & _).
  destruct (Hf c t Hl) as (_ & _ & _ & Hlt). rewrite Hph in Hlt.
  assert (s1 = setFetches
    (<[c := {| t_q := t_q t; t_key := t_key t; t_attempt := (t_attempt t + 1)%Z;
               t_phase := AwaitFetch |}]> (fetches s)) (callFetchFn c (t_q t) s))
    as Hs1.
  { subst s1. rewrite (step_backoffElapsed p s c t ms Hs Hl Hph).
    unfold attemptFetch.
    by destruct (Z.ltb_spec (t_attempt t + 1) (maxAttempts p)); [|lia]. }
  assert (s2 = onView highlightEffect (setFetches (delete c (fetches s1)) s1))
    as Hs2.
  { subst s2.
    rewrite (step_fetchSettled p s1 c
      {| t_q := t_q t; t_key := t_key t; t_attempt := (t_attempt t + 1)%Z;
         t_phase := AwaitFetch |} o); [|rewrite Hs1; cbn [fetches setFetches];
         by rewrite lookup_insert_eq|done].
    unfold fetchContinuation.
    assert (c ∈ aborted s1) as Hab1 by (by rewrite Hs1).
    destruct o; by rewrite bool_decide_true. }
  clearbody s1 s2. rewrite Hs2, Hs1.
  cbn [view onView setFetches callFetchFn fetchLog cacheRef fetches].
  rewrite lookup_delete_eq. unfold settled in Hs. by rewrite Hs.
Qed.

Lemma aborted_backoff_still_calls_fetchFn_witness :
  fetchLog (run (T := string) hit_params init
    [UpdateInput "a"; TimerFire 1; FetchSettled 0 Rejected; Clear;
     BackoffElapsed 0]) = [(0, "a"); (0, "a")].
Proof.
  pose proof (aborted_backoff_still_calls_fetchFn (T := string) hit_params
    (run hit_params init
       [UpdateInput "a"; TimerFire 1; FetchSettled 0 Rejected; Clear]) 0
    {| t_q := "a"; t_key := "a"; t_attempt := 0; t_phase := AwaitBackoff 150 |}
    150 Rejected
    ltac:(by exists [UpdateInput "a"; TimerFire 1; FetchSettled 0 Rejected; Clear])
    ltac:(vm_compute; reflexivity) ltac:(reflexivity)
    ltac:(apply (bool_decide_unpack _); vm_compute; exact I)) as H.
  cbv zeta in H. exact (proj1 H).
Defined.

(** ** Highlight navigation, continued *)

Lemma nextHighlight_inside (n h d : Z) :
  (0 ≤ h + d < n)%Z → nextHighlight n h d = (h + d)%Z.
Proof.
  intros H. unfold nextHighlight.
  destruct (Z.eqb_spec n 0); [lia|].
  destruct (Z.ltb_spec (h + d) 0); [lia|].
  destruct (Z.geb_spec (h + d) n); [lia|done].
Qed.

Lemma nextHighlight_below (n h d : Z) :
  (0 < n)%Z → (h + d < 0)%Z → nextHighlight n h d = (n - 1)%Z.
Proof.
  intros Hn H. unfold nextHighlight.
  destruct (Z.eqb_spec n 0); [lia|].
  destruct (Z.ltb_spec (h + d) 0); [|lia].
  destruct (Z.geb_spec (n - 1) n); [lia|done].
Qed.

Lemma nextHighlight_above (n h d : Z) :
  (0 < n)%Z → (n ≤ h + d)%Z → nextHighlight n h d = 0%Z.
Proof.
  intros Hn H. unfold nextHighlight.
  destruct (Z.eqb_spec n 0); [lia|].
  destruct (Z.ltb_spec (h + d) 0); [lia|].
  destruct (Z.geb_spec (h + d) n); [done|lia].
Qed.

(** X13: on a highlighted item, one step down followed by one step up (and
    one step up followed by one step down) comes back to the same item,
    across the ends of the list too. *)
Theorem moveHighlight_down_up_inverse {T} (w : View T) :
  (0 ≤ highlight w < Z.of_nat (length (suggestions w)))%Z →
  moveHighlight (-1) (moveHighlight 1 w) = w ∧
  moveHighlight 1 (moveHighlight (-1) w) = w.
Proof.
  intros Hh. destruct w as [i q l ld er h nr]. simpl in Hh.
  unfold moveHighlight, setHighlight.
  cbn [input query suggestions loading error highlight noResults].
  set (n := Z.of_nat (length l)) in *.
  split; f_equal.
  - destruct (decide (h + 1 = n)%Z) as [Heq|Hne].
    + rewrite (nextHighlight_above n h 1) by lia.
      rewrite nextHighlight_below by lia. lia.
    + rewrite (nextHighlight_inside n h 1) by lia.
      rewrite nextHighlight_inside by lia. lia.
  - destruct (decide (h = 0)%Z) as [Heq|Hne].
    + rewrite (nextHighlight_below n h (-1)) by lia.
      rewrite nextHighlight_above by lia. lia.
    + rewrite (nextHighlight_inside n h (-1)) by lia.
      rewrite nextHighlight_inside by lia. lia.
Qed.

Lemma moveHighlight_down_up_inverse_witness :
  moveHighlight (-1) (moveHighlight 1
    {| input := "a"; query := "a"; suggestions := ["x"; "y"; "z"];
       loading := false; error := None; highlight := 2%Z; noResults := false |})
  = {| input := "a"; query := "a"; suggestions := ["x"; "y"; "z"];
       loading := false; error := None; highlight := 2%Z; noResults := false |}.
Proof.
  apply (moveHighlight_down_up_inverse
    {| input := "a"; query := "a"; suggestions := ["x"; "y"; "z"];
       loading := false; error := None; highlight := 2%Z; noResults := false |}).
  simpl. lia.
Defined.

(** X14: stepping down [k] times from a highlighted item [h] in a list of
    [n] items arrives at [(h + k) mod n]; in particular [n] steps come
    back to [h]. *)
Theorem moveHighlight_down_cycles {T} (w : View T) (k : nat) :
  (0 ≤ highlight w < Z.of_nat (length (suggestions w)))%Z →
  let n := Z.of_nat (length (suggestions w)) in
  Nat.iter k (moveHighlight 1) w =
    setHighlight ((highlight w + Z.of_nat k) `mod` n) w ∧
  Nat.iter (length (suggestions w)) (moveHighlight 1) w = w.
Proof.
  intros Hh n.
  assert (∀ j, Nat.iter j (moveHighlight 1) w =
               setHighlight ((highlight w + Z.of_nat j) `mod` n) w) as Hiter.
  { induction j as [|j IH].
    - simpl. rewrite Z.add_0_r, Z.mod_small by done. by destruct w.
    - rewrite Nat.iter_succ, IH.
      unfold moveHighlight. cbn [suggestions highlight setHighlight].
      fold n. unfold setHighlight. cbn [input query suggestions loading error
        highlight noResults]. f_equal.
      pose proof (Z.mod_pos_bound (highlight w + Z.of_nat j) n ltac:(lia)) as Hb.
      replace (highlight w + Z.of_nat (S j))%Z
        with ((highlight w + Z.of_nat j) + 1)%Z by lia.
      rewrite <- (Zplus_mod_idemp_l (highlight w + Z.of_nat j) 1 n).
      destruct (decide ((highlight w + Z.of_nat j) `mod` n + 1 = n)%Z)
        as [Heq|Hne].
      + rewrite nextHighlight_above by lia. rewrite Heq.
        by rewrite Z_mod_same_full.
      + rewrite nextHighlight_inside by lia. symmetry. apply Z.mod_small. lia. }
  split; [apply Hiter|]. rewrite Hiter. fold n.
  rewrite <- (Z.mul_1_l n) at 1. rewrite Z_mod_plus_full, Z.mod_small by done.
  by destruct w.
Qed.

Lemma moveHighlight_down_cycles_witness :
  Nat.iter 3 (moveHighlight 1)
    {| input := "a"; query := "a"; suggestions := ["x"; "y"; "z"];
       loading := false; error := None; highlight := 1%Z; noResults := false |}
  = {| input := "a"; query := "a"; suggestions := ["x"; "y"; "z"];
       loading := false; error := None; highlight := 1%Z; noResults := false |}.
Proof.
  pose proof (moveHighlight_down_cycles
    {| input := "a"; query := "a"; suggestions := ["x"; "y"; "z"];
       loading := false; error := None; highlight := 1%Z; noResults := false |}
    3 ltac:(simpl; lia)) as [_ H].
  exact H.
Defined.

(** X15: replacing the list.  [setSuggestions] writes the list and nothing
    else, except that the highlight effect then resets a highlight that
    no longer points into the list; an index still inside the new list is
    kept. *)
Theorem setSuggestions_resets_stale_highlight {T} (p : UseAutocompleteParams)
    (s : State T) (l : list T) :
  let s1 := step p s (SetSuggestions l) in
  suggestions (view s1) = l ∧
  highlight (view s1) =
    (if (highlight (view s) >=? Z.of_nat (length l))%Z then (-1)%Z
     else highlight (view s)) ∧
  input (view s1) = input (view s) ∧ query (view s1) = query (view s) ∧
  loading (view s1) = loading (view s) ∧ error (view s1) = error (view s) ∧
  noResults (view s1) = noResults (view s) ∧
  fetchLog s1 = fetchLog s ∧ timers s1 = timers s ∧ aborted s1 = aborted s.
Proof.
  intros s1. subst s1. rewrite step_same_query by done.
  unfold handle. cbn [view onView fetchLog timers aborted].
  unfold highlightEffect. cbn [highlight suggestions setSuggestions].
  by case_match.
Qed.

(** ** The component *)

(** The view after the updates of [handleSelect], applied together or
    one render at a time. *)
Lemma handleSelect_view (p : UseAutocompleteParams) (word : string)
    (w : View string) :
  setSuggestions [] (updateInput p word w) =
    updateInput p word
      (highlightEffect (setSuggestions [] (highlightEffect w))).
Proof.
  destruct w as [i q l ld er h nr]. unfold updateInput, highlightEffect.
  destruct (Z.of_nat (String.length word) >=? minChars (destructure p))%Z;
    cbn [input query suggestions loading error highlight noResults
         setInput setQuery setSuggestions setHighlight setLoading setError
         setNoResults];
    repeat case_match; reflexivity.
Qed.

Lemma handleSelect_view_selection (p : UseAutocompleteParams) (word : string)
    (w : View string) :
  setNoResults false (setError None (setLoading true
    (setSuggestions [] (updateInput p word w)))) =
    updateInput p word
      (highlightEffect (setSuggestions []
         (highlightEffect (setNoResults false (setError None
            (setLoading true w)))))).
Proof.
  destruct w as [i q l ld er h nr]. unfold updateInput, highlightEffect.
  destruct (Z.of_nat (String.length word) >=? minChars (destructure p))%Z;
    cbn [input query suggestions loading error highlight noResults
         setInput setQuery setSuggestions setHighlight setLoading setError
         setNoResults];
    repeat case_match; reflexivity.
Qed.

(** [handleSelect] as a run of hook events. *)
Lemma handleSelect_as_run (p : UseAutocompleteParams) (word : string)
    (s : State string) :
  handleSelect p word s =
    run p s [HandleSelection word; SetSuggestions []; UpdateInput word].
Proof.
  unfold run. cbn [fold_left].
  rewrite (step_same_query p s (HandleSelection word))
    by (unfold handle, handleSelection; by case_match).
  set (sa := onView highlightEffect (handle p (HandleSelection word) s)).
  rewrite (step_same_query p sa (SetSuggestions [])) by done.
  set (sb := onView highlightEffect (handle p (SetSuggestions []) sa)).
  unfold step, handleSelect. cbv zeta.
  assert (query (view sb) = query (view s)) as ->.
  { subst sb sa. unfold handle, handleSelection.
    case_match; cbn [view onView newController callSelectionFn setSelections];
      unfold highlightEffect; repeat case_match; done. }
  f_equal. subst sb sa. unfold handle, handleSelection.
  destruct s as [w dr ar cr cl tms nt ab nc fs sels fl sl].
  destruct (selectionFn (destructure p));
    cbv [onView setSelections callSelectionFn newController view debounceRef
         abortRef cacheRef cleanup timers nextTimer aborted nextController
         fetches selections fetchLog selectionLog];
    f_equal.
  - apply handleSelect_view_selection.
  - apply handleSelect_view.
Qed.

(** The view after the two updates of the Escape branch, applied
    together or one render at a time. *)
Lemma escape_view (w : View string) :
  suggestions w ≠ [] →
  highlightEffect (setHighlightIndexOf w (-1) (setSuggestions [] w)) =
  highlightEffect (setHighlightIndex (-1)
    (highlightEffect (setSuggestions [] w))).
Proof.
  destruct w as [i q l ld er h nr]. destruct l as [|x l]; [done|]. intros _.
  unfold setHighlightIndexOf, setHighlightIndex, highlightEffect.
  cbn [input query suggestions loading error highlight noResults
       setSuggestions setHighlight length].
  destruct (Z.geb_spec h (Z.of_nat 0));
    cbn [input query suggestions loading error highlight noResults
         setSuggestions setHighlight length];
    reflexivity.
Qed.

(** X16: every key press is a run of hook events, so the states the
    component drives the hook into are reachable states of the hook, and
    the invariants of reachable states hold in them. *)
Theorem handleKeyDown_reachable (p : UseAutocompleteParams) (key : Key)
    (s : State string) :
  reachable p s → reachable p (handleKeyDown p key s).
Proof.
  intros Hr. pose proof (reachable_settled p s Hr) as Hs.
  assert (∀ es, reachable p (run p s es)) as Hrun.
  { intros es. destruct Hr as [es0 ->]. exists (es0 ++ es).
    unfold run. by rewrite fold_left_app. }
  destruct key; unfold handleKeyDown; try done;
    try (by apply reachable_step).
  - case_match; [|done]. rewrite handleSelect_as_run. apply Hrun.
  - case_match; [|done]. rewrite handleSelect_as_run. apply Hrun.
  - destruct (isNil (suggestions (view s))) eqn:Hnil; cbn [negb].
    + case_match; [by apply reachable_step|done].
    + assert (afterRender p (query (view s))
               (onView (setHighlightIndexOf (view s) (-1))
                  (onView (setSuggestions []) s))
              = run p s [SetSuggestions []; SetHighlightIndex (-1)]) as ->;
        [|apply Hrun].
      unfold run. cbn [fold_left].
      rewrite (step_same_query p s (SetSuggestions [])) by done.
      set (sa := onView highlightEffect (handle p (SetSuggestions []) s)).
      rewrite (step_same_query p sa (SetHighlightIndex (-1)))
        by (unfold handle; cbn [view onView]; unfold setHighlightIndex;
            by case_match).
      unfold afterRender.
      rewrite bool_decide_true
        by (cbn [view onView]; unfold setHighlightIndexOf; by case_match).
      subst sa. unfold handle.
      destruct s as [w dr ar cr cl tms nt ab nc fs sels fl sl].
      cbv [onView view debounceRef abortRef cacheRef cleanup timers nextTimer
           aborted nextController fetches selections fetchLog selectionLog].
      f_equal. apply escape_view. cbn [view] in Hnil. by destruct (suggestions w).
Qed.

Lemma handleKeyDown_reachable_witness :
  reachable hit_params
    (handleKeyDown hit_params Escape
       (run hit_params init
          [UpdateInput "ap"; TimerFire 1;
           FetchSettled 0 (Resolved (IsArray ["apple"; "apricot"]))])).
Proof.
  apply handleKeyDown_reachable.
  by exists [UpdateInput "ap"; TimerFire 1;
             FetchSettled 0 (Resolved (IsArray ["apple"; "apricot"]))].
Defined.

(** X17: choosing a suggestion.  With a [selectionFn] and a word of at
    least [minChars] characters, [handleSelect] calls [selectionFn] once
    under a new controller and sets [loading].  When the
    word chosen differs from the current query, the render that follows
    runs the query effect, which aborts that very controller: whatever
    [selectionFn] returns is then dropped.  Only when the word equals the
    current query does the result of [selectionFn] reach the view. *)
Theorem handleSelect_aborts_its_own_request (p : UseAutocompleteParams)
    (s : State string) (word : string) (o : Outcome string) :
  reachable p s → selectionFn (destructure p) = true →
  (minChars (destructure p) ≤ Z.of_nat (String.length word))%Z →
  let c := nextController s in
  let s1 := handleSelect p word s in
  let s2 := step p s1 (SelectionSettled c o) in
  selectionLog s1 = selectionLog s ++ [(c, word)] ∧
  abortRef s1 = Some c ∧ c ∈ selections s1 ∧
  input (view s1) = word ∧ query (view s1) = word ∧ loading (view s1) = true ∧
  (word ≠ query (view s) → c ∈ aborted s1 ∧ view s2 = view s1) ∧
  (word = query (view s) →
   (c ∉ aborted s1) ∧ suggestions (view s1) = [] ∧
   ∀ d, o = Resolved d →
     suggestions (view s2) = toArray d ∧ loading (view s2) = false).
Proof.
  intros Hr Hsel Hlen c s1 s2.
  set (Y := handleSelection p word
              (onView (setSuggestions []) (onView (updateInput p word) s))).
  assert (s1 = afterRender p (query (view s)) Y) as Hs1 by done.
  assert (view Y = setNoResults false (setError None (setLoading true
            (setSuggestions [] (setQuery word (setHighlight (-1)
               (setInput word (view s))))))) ∧
          abortRef Y = Some c ∧ selections Y = {[c]} ∪ selections s ∧
          selectionLog Y = selectionLog s ++ [(c, word)] ∧
          aborted Y = aborted s) as (HvY & HrY & HsY & HlY & HaY).
  { subst Y. unfold handleSelection. rewrite Hsel.
    cbn [view onView newController callSelectionFn setSelections abortRef
         selections selectionLog aborted nextController].
    unfold updateInput.
    destruct (Z.geb_spec (Z.of_nat (String.length word)) (minChars (destructure p)));
      [done|lia]. }
  assert (settled s1) as Hset.
  { rewrite Hs1. unfold settled, afterRender. cbn [view onView].
    apply highlightEffect_idem. }
  assert (selectionLog s1 = selectionLog s ++ [(c, word)]) as Hlog
    by by rewrite Hs1, afterRender_selectionLog.
  assert (c ∈ selections s1) as Hin.
  { rewrite Hs1, afterRender_selections, HsY.
    by apply elem_of_union_l, elem_of_singleton. }
  assert (abortRef s1 = Some c) as Href.
  { rewrite Hs1. unfold afterRender. case_bool_decide; cbn [abortRef onView];
      [done|by rewrite queryEffect_abortRef]. }
  assert (input (view s1) = word ∧ query (view s1) = word ∧
          loading (view s1) = true) as (Hi & Hq & Hld).
  { rewrite Hs1. unfold afterRender. case_bool_decide; cbn [view onView].
    - destruct (highlightEffect_frame (view Y)) as (-> & -> & _ & -> & _).
      by rewrite HvY.
    - destruct (highlightEffect_frame (view (queryEffect p Y)))
        as (-> & -> & _ & -> & _).
      destruct (queryEffect_view_frame p Y) as (-> & -> & -> & _).
      by rewrite HvY. }
  split; [done|]. split; [done|]. split; [done|]. split; [done|].
  split; [done|]. split; [done|]. split.
  - intros Hne.
    assert (c ∈ aborted s1) as Hab.
    { rewrite Hs1. unfold afterRender.
      rewrite bool_decide_false by (by rewrite HvY).
      cbn [aborted onView]. by apply queryEffect_aborts_current. }
    split; [done|].
    by destruct (selectionSettled_aborted p s1 c o Hset Hab).
  - intros Heq.
    assert (s1 = onView highlightEffect Y) as Hs1'.
    { rewrite Hs1. unfold afterRender. by rewrite bool_decide_true by (by rewrite HvY). }
    destruct (reachable_controllers_ok p s Hr) as (Hfresh & _ & _).
    assert (c ∉ aborted s1) as Hnab.
    { rewrite Hs1'. cbn [aborted onView]. rewrite HaY.
      intros Hc. apply Hfresh in Hc. subst c. lia. }
    assert (view s1 = view Y) as Hv1.
    { rewrite Hs1'. cbn [view onView]. rewrite HvY.
      by apply highlightEffect_unset. }
    split; [done|]. split; [by rewrite Hv1, HvY|].
    intros d ->. subst s2.
    rewrite step_same_query.
    + unfold handle. rewrite bool_decide_true by done.
      unfold selectionContinuation. cbn [aborted setSelections].
      rewrite bool_decide_false by done. cbn [view onView setSelections].
      rewrite highlightEffect_unset by done. done.
    + unfold handle. rewrite bool_decide_true by done.
      unfold selectionContinuation. cbn [aborted setSelections].
      by rewrite bool_decide_false by done.
Qed.

Lemma handleSelect_aborts_its_own_request_witness :
  1 ∈ aborted (handleSelect sel_params "apple"
    (run sel_params init
       [UpdateInput "ap"; TimerFire 1;
        FetchSettled 0 (Resolved (IsArray ["apple"; "apricot"]))])).
Proof.
  pose proof (handleSelect_aborts_its_own_request sel_params
    (run sel_params init
       [UpdateInput "ap"; TimerFire 1;
        FetchSettled 0 (Resolved (IsArray ["apple"; "apricot"]))])
    "apple" Rejected
    ltac:(by exists [UpdateInput "ap"; TimerFire 1;
             FetchSettled 0 (Resolved (IsArray ["apple"; "apricot"]))])
    ltac:(reflexivity) ltac:(vm_compute; discriminate)) as H.
  cbv zeta in H. destruct H as (_ & _ & _ & _ & _ & _ & H & _).
  exact (proj1 (H ltac:(vm_compute; discriminate))).
Defined.

(** X18: keyboard.  Escape on an open list closes it (the list is emptied,
    the highlight reset, the input kept, nothing fetched); Escape again
    clears the input and the query; a further Escape does nothing.
    After the first Escape no item is highlighted, and Enter and Tab do
    nothing. *)
Theorem escape_closes_then_clears (p : UseAutocompleteParams) (s : State string) :
  suggestions (view s) ≠ [] → input (view s) ≠ EmptyString →
  let s1 := handleKeyDown p Escape s in
  let s2 := handleKeyDown p Escape s1 in
  (suggestions (view s1) = [] ∧ highlight (view s1) = (-1)%Z ∧
   input (view s1) = input (view s) ∧ query (view s1) = query (view s) ∧
   fetchLog s1 = fetchLog s ∧ timers s1 = timers s) ∧
  (input (view s2) = EmptyString ∧ query (view s2) = EmptyString ∧
   suggestions (view s2) = [] ∧ error (view s2) = None) ∧
  handleKeyDown p Escape s2 = s2 ∧
  handleKeyDown p Enter s1 = s1 ∧ handleKeyDown p Tab s1 = s1.
Proof.
  intros Hl Hin s1 s2.
  assert (view s1 = setHighlight (-1) (setSuggestions [] (view s)) ∧
          fetchLog s1 = fetchLog s ∧ timers s1 = timers s) as (Hv1 & Hf1 & Ht1).
  { subst s1. unfold handleKeyDown.
    destruct (suggestions (view s)) as [|x l] eqn:Hsug; [done|]. cbn [isNil negb].
    unfold afterRender.
    rewrite bool_decide_true
      by (cbn [view onView]; unfold setHighlightIndexOf; by case_match).
    cbn [view onView fetchLog timers]. unfold setHighlightIndexOf.
    rewrite Hsug. cbn [length].
    change ((-1 <? -1)%Z || (-1 >=? Z.of_nat (S (length l)))%Z) with false.
    cbn match. by rewrite highlightEffect_unset. }
  assert (s2 = step p s1 Clear) as Hs2.
  { subst s2. unfold handleKeyDown. rewrite Hv1.
    cbn [suggestions setHighlight setSuggestions isNil negb input].
    by destruct (input (view s)). }
  assert (view s2 = {| input := ""; query := ""; suggestions := [];
                       loading := loading (view s1); error := None;
                       highlight := (-1)%Z; noResults := false |}) as Hv2.
  { rewrite Hs2. unfold step, afterRender. cbn [view onView].
    case_bool_decide.
    - by apply highlightEffect_unset.
    - destruct (queryEffect_empty p (handle p Clear s1)) as (-> & _); [done|].
      by apply highlightEffect_unset. }
  clearbody s1 s2. rewrite Hv1, Hv2. repeat split; try done.
  - unfold handleKeyDown. by rewrite Hv2.
  - unfold handleKeyDown, highlighted. by rewrite Hv1.
  - unfold handleKeyDown, highlighted. by rewrite Hv1.
Qed.

Lemma escape_closes_then_clears_witness :
  input (view (handleKeyDown hit_params Escape (handleKeyDown hit_params Escape
    (run hit_params init
       [UpdateInput "ap"; TimerFire 1;
        FetchSettled 0 (Resolved (IsArray ["apple"; "apricot"]))]))))
  = EmptyString.
Proof.
  pose proof (escape_closes_then_clears hit_params
    (run hit_params init
       [UpdateInput "ap"; TimerFire 1;
        FetchSettled 0 (Resolved (IsArray ["apple"; "apricot"]))])
    ltac:(vm_compute; discriminate) ltac:(vm_compute; discriminate)) as H.
  cbv zeta in H. destruct H as (_ & (H & _) & _). exact H.
Defined.

(** ** Marking the match in a suggestion *)

Lemma substring_length (s : string) (n m : nat) :
  String.length (String.substring n m s) = Nat.min m (String.length s - n).
Proof.
  revert n m. induction s as [|a s IH]; intros [|n] [|m];
    cbn [String.substring String.length]; rewrite ?IH; lia.
Qed.

Lemma append_cons (a : ascii) (x y : string) :
  String a x +:+ y = String a (x +:+ y).
Proof. done. Qed.

Lemma substring_all (s : string) : String.substring 0 (String.length s) s = s.
Proof. induction s as [|a s IH]; cbn [String.substring String.length]; congruence. Qed.

Lemma substring_rest (s : string) (n : nat) :
  String.substring 0 n s +:+ String.substring n (String.length s - n) s = s.
Proof.
  revert n. induction s as [|a s IH]; intros [|n];
    cbn [String.substring String.length Nat.sub String.append]; try done.
  - by rewrite substring_all.
  - by rewrite append_cons, IH.
Qed.

Lemma substring_split (s : string) (n m1 m2 : nat) :
  String.substring n (m1 + m2) s =
    String.substring n m1 s +:+ String.substring (n + m1) m2 s.
Proof.
  revert n m1. induction s as [|a s IH]; intros n m1.
  - destruct n, m1, m2; done.
  - destruct n as [|n].
    + destruct m1 as [|m1]; [done|].
      cbn [String.substring Nat.add]. by rewrite append_cons, (IH 0 m1).
    + apply (IH n m1).
Qed.

Lemma toLowerCase_substring (s : string) (n m : nat) :
  Str.toLowerCase (String.substring n m s) =
    String.substring n m (Str.toLowerCase s).
Proof.
  revert n m. induction s as [|a s IH]; intros [|n] [|m]; simpl;
    rewrite ?IH; done.
Qed.

Lemma substring_none (s : string) (n : nat) : String.substring n 0 s = EmptyString.
Proof. revert n. induction s as [|a s IH]; intros [|n]; cbn [String.substring]; done. Qed.

Lemma substring_clamp (s : string) (n m : nat) :
  String.length s - n ≤ m →
  String.substring n m s = String.substring n (String.length s - n) s.
Proof.
  revert n m. induction s as [|a s IH]; intros n m Hle.
  - by destruct n, m.
  - destruct n as [|n]; cbn [String.length Nat.sub] in *.
    + destruct m as [|m]; [lia|]. cbn [String.substring]. f_equal.
      rewrite (IH 0 m) by lia. by rewrite Nat.sub_0_r.
    + cbn [String.substring]. by apply IH.
Qed.

Lemma append_empty_r (s : string) : s +:+ EmptyString = s.
Proof. induction s as [|a s IH]; [done|]. by rewrite append_cons, IH. Qed.

(** Three consecutive slices of a string make up the string, wherever
    the cuts fall. *)
Lemma slices_concat (s : string) (n l : nat) :
  slice 0 n s +:+ slice n (n + l) s +:+ sliceFrom (n + l) s = s.
Proof.
  unfold slice, sliceFrom. rewrite Nat.sub_0_r.
  replace (n + l - n) with l by lia.
  transitivity (String.substring 0 n s +:+
                String.substring n (String.length s - n) s);
    [|apply substring_rest].
  f_equal.
  destruct (decide (l ≤ String.length s - n)) as [Hle|Hgt].
  - rewrite <- substring_split. f_equal. lia.
  - replace (String.length s - (n + l)) with 0 by lia.
    rewrite substring_none, append_empty_r. apply substring_clamp. lia.
Qed.

Lemma toLowerCase_codeUnitWise : codeUnitWise Str.toLowerCase.
Proof. split; [apply toLowerCase_length|apply toLowerCase_substring]. Qed.

(** X19: [renderWord] never changes the text: the parts it returns, put
    together, are the word, whatever the lower-casing does.  It marks a
    part only when matching is switched on, the input is not empty and
    the lower-cased input occurs in the lower-cased word; the marked part
    is never longer than the input.  For a lower-casing that works code
    unit by code unit, the marked part is the first place where the input
    occurs in the word, letter case ignored: it has the length of the
    input and the same lower-case form, it starts where [indexOf] found
    the lower-cased input, and no earlier place matches. *)
Theorem renderWord_marks_the_match (toLowerCase : string → string)
    (highlightMatch : bool) (inp word : string) :
  let r := renderWord toLowerCase highlightMatch inp word in
  renderedText r = word ∧
  (∀ before mark after, r = Marked before mark after →
     highlightMatch = true ∧ inp ≠ EmptyString ∧
     String.length mark ≤ String.length inp ∧
     ∃ idx, indexOf (toLowerCase word) (toLowerCase inp) = Some idx ∧
            String.length before = Nat.min idx (String.length word)) ∧
  (codeUnitWise toLowerCase →
   ∀ before mark after, r = Marked before mark after →
     String.length mark = String.length inp ∧
     toLowerCase mark = toLowerCase inp ∧
     indexOf (toLowerCase word) (toLowerCase inp)
       = Some (String.length before) ∧
     (∀ k, k < String.length before →
        toLowerCase (slice k (k + String.length inp) word)
          ≠ toLowerCase inp)).
Proof.
  intros r. subst r. unfold renderWord.
  destruct highlightMatch; cbn [negb]; [|by repeat split].
  destruct (indexOf (toLowerCase word) (toLowerCase inp)) as [idx|] eqn:Hidx;
    [|by repeat split].
  destruct (Str.isEmpty inp) eqn:Hemp; [by repeat split|].
  apply isEmpty_false_iff in Hemp.
  split; [apply slices_concat|]. split.
  - intros before mark after [= <- <- <-]. unfold slice.
    rewrite !substring_length. repeat split; [done|lia|].
    exists idx. split; [done|lia].
  - intros [Hlen Hsubstr] before mark after [= <- <- <-].
    unfold indexOf in Hidx.
    pose proof (String.index_correct1 _ _ _ _ Hidx) as Hsub.
    rewrite Hlen in Hsub.
    assert (String.length inp ≤ String.length word - idx) as Hle.
    { pose proof (f_equal String.length Hsub) as Hl.
      rewrite substring_length, !Hlen in Hl. lia. }
    assert (0 < String.length inp) as Hpos by (destruct inp; [done|simpl; lia]).
    unfold slice. rewrite Nat.sub_0_r.
    replace (idx + String.length inp - idx) with (String.length inp) by lia.
    rewrite !substring_length, Hsubstr, Hsub.
    replace (Nat.min idx (String.length word - 0)) with idx by lia.
    repeat split; try done; try lia.
    intros k Hk.
    replace (k + String.length inp - k) with (String.length inp) by lia.
    rewrite Hsubstr, <- (Hlen inp).
    apply (String.index_correct2 _ _ _ _ Hidx); lia.
Qed.

Lemma renderWord_marks_the_match_witness :
  renderWord Str.toLowerCase true "PP" "Apple" = Marked "A" "pp" "le" ∧
  Str.toLowerCase "pp" = Str.toLowerCase "PP".
Proof.
  split; [reflexivity|].
  pose proof (renderWord_marks_the_match Str.toLowerCase true "PP" "Apple") as H.
  cbv zeta in H. destruct H as (_ & _ & H).
  exact (proj1 (proj2 (H toLowerCase_codeUnitWise "A" "pp" "le" eq_refl))).
Defined.

Example renderWord_example :
  renderWord Str.toLowerCase true "PP" "Apple" = Marked "A" "pp" "le" ∧
  renderWord Str.toLowerCase true "x" "Apple" = Plain "Apple" ∧
  renderWord Str.toLowerCase true "" "Apple" = Plain "Apple" ∧
  renderWord Str.toLowerCase false "pp" "Apple" = Plain "Apple".
Proof. by vm_compute. Qed.

(** X20: Home and End.  On a list that is not empty, Home highlights the
    first item and End the last, and nothing else of the view changes;
    on an empty list neither key changes the state, although End passes
    the index -1, which [setHighlightIndex] accepts. *)
Theorem home_end_keys (p : UseAutocompleteParams) (s : State string) :
  reachable p s →
  let n := Z.of_nat (length (suggestions (view s))) in
  (suggestions (view s) ≠ [] →
     view (handleKeyDown p Home s) = setHighlight 0 (view s) ∧
     view (handleKeyDown p EndKey s) = setHighlight (n - 1) (view s)) ∧
  (suggestions (view s) = [] →
     handleKeyDown p Home s = s ∧ handleKeyDown p EndKey s = s).
Proof.
  intros Hr n.
  pose proof (reachable_settled p s Hr) as Hs.
  pose proof (reachable_highlight_range p s Hr) as Hh. fold n in Hh.
  unfold handleKeyDown. fold n. split.
  - intros Hne.
    assert (0 < n)%Z as Hn by (subst n; destruct (suggestions (view s)); [done|simpl; lia]).
    rewrite !step_same_query
      by (unfold handle; cbn [view onView]; unfold setHighlightIndex; by case_match).
    unfold handle. cbn [view onView]. unfold setHighlightIndex. fold n.
    destruct (Z.ltb_spec 0 (-1)); [lia|].
    destruct (Z.geb_spec 0 n); [lia|].
    destruct (Z.ltb_spec (n - 1) (-1)); [lia|].
    destruct (Z.geb_spec (n - 1) n); [lia|].
    cbn [orb]. unfold highlightEffect.
    cbn [highlight suggestions setHighlight]. fold n.
    destruct (Z.geb_spec 0 n); [lia|].
    by destruct (Z.geb_spec (n - 1) n); [lia|].
  - intros Hnil.
    assert (n = 0%Z) as Hn by (subst n; by rewrite Hnil).
    assert (highlight (view s) = (-1)%Z) as Hm by lia.
    rewrite !step_same_query
      by (unfold handle; cbn [view onView]; unfold setHighlightIndex; by case_match).
    unfold handle. rewrite Hn.
    assert (onView (setHighlightIndex 0) s = s) as ->.
    { destruct s as [w dr ar cr cl tms nt ab nc fs sels fl sl].
      unfold onView. cbn [view] in *. f_equal.
      unfold setHighlightIndex. fold n. rewrite Hn. done. }
    assert (onView (setHighlightIndex (0 - 1)) s = s) as ->.
    { destruct s as [[i q l ld er h nr] dr ar cr cl tms nt ab nc fs sels fl sl].
      unfold onView. cbn [view highlight suggestions] in *. f_equal.
      unfold setHighlightIndex. cbn [suggestions]. subst n. rewrite Hn.
      cbn. by rewrite Hm. }
    split; by apply onView_settled.
Qed.

Lemma home_end_keys_witness :
  highlight (view (handleKeyDown hit_params EndKey
    (run hit_params init
       [UpdateInput "ap"; TimerFire 1;
        FetchSettled 0 (Resolved (IsArray ["apple"; "apricot"]))]))) = 1%Z.
Proof.
  pose proof (home_end_keys hit_params
    (run hit_params init
       [UpdateInput "ap"; TimerFire 1;
        FetchSettled 0 (Resolved (IsArray ["apple"; "apricot"]))])
    ltac:(by exists [UpdateInput "ap"; TimerFire 1;
             FetchSettled 0 (Resolved (IsArray ["apple"; "apricot"]))])) as H.
  cbv zeta in H. destruct H as [H _].
  destruct (H ltac:(vm_compute; discriminate)) as [_ H2].
  by rewrite H2.
Defined.
